(** * Whats-the-Question: the question manager

    A shallow embedding of [question_manager.py] (class [QuestionManager])
    and the properties of its answer normalisation, its loader and its
    dispenser.

    Python strings are sequences of Unicode code points: a string is a
    [list N].  What CPython's Unicode database decides (NFKD, combining
    classes, lowercasing, the whitespace and alphanumeric classes) is an
    interface, [Unicode]; [UnicodeLaws] records what that database does on
    ASCII, and [ascii_unicode] is the instance that is exact on ASCII text. *)

From Stdlib Require Import NArith ZArith List Ascii String Bool Lia.
From stdpp Require Import base list gmap.
Import ListNotations.

Abbreviation str := (list N).

(** A literal of the source, as code points. *)
Definition lit (s : string) : str := map N_of_ascii (list_ascii_of_string s).

Module Py.
Local Open Scope N_scope.

(** ** The Unicode database used by [str] and [re] *)

Class Unicode := {
  (** [unicodedata.normalize("NFKD", s)] *)
  nfkd : str -> str;
  (** [unicodedata.combining(ch)], the canonical combining class *)
  combining : N -> N;
  (** [s.lower()] *)
  lower : str -> str;
  (** [ch.isspace()], which is also the class [\s] of a [str] pattern *)
  isspace : N -> bool;
  (** [ch.isalnum()]; with the underscore, the class [\w] of a [str] pattern *)
  isalnum : N -> bool
}.

Definition is_ascii (c : N) : bool := c <? 128.
Definition is_digit (c : N) : bool := (48 <=? c) && (c <=? 57).
Definition is_az (c : N) : bool := (97 <=? c) && (c <=? 122).
Definition is_AZ (c : N) : bool := (65 <=? c) && (c <=? 90).

Definition ascii_lower (c : N) : N := if is_AZ c then c + 32 else c.
Definition ascii_isspace (c : N) : bool :=
  ((9 <=? c) && (c <=? 13)) || ((28 <=? c) && (c <=? 32)).
Definition ascii_isalnum (c : N) : bool := is_digit c || is_az c || is_AZ c.

(** What CPython's tables do on ASCII. *)
Class UnicodeLaws (U : Unicode) : Prop := {
  nfkd_ascii : forall s, forallb is_ascii s = true -> nfkd s = s;
  combining_ascii : forall c, is_ascii c = true -> combining c = 0;
  lower_ascii : forall s, forallb is_ascii s = true -> lower s = map ascii_lower s;
  isspace_ascii : forall c, is_ascii c = true -> isspace c = ascii_isspace c;
  isalnum_ascii : forall c, is_ascii c = true -> isalnum c = ascii_isalnum c
}.

(** The tables restricted to ASCII: exact on ASCII text, and leaving every
    other code point alone (not a letter, not a space, not a mark). *)
Definition ascii_unicode : Unicode := {|
  nfkd := fun s => s;
  combining := fun _ => 0;
  lower := map ascii_lower;
  isspace := fun c => is_ascii c && ascii_isspace c;
  isalnum := fun c => is_ascii c && ascii_isalnum c
|}.

Section Strings.
Context {U : Unicode}.

(** ** [str] methods *)

(** [s.lstrip()] *)
Fixpoint lstrip (s : str) : str :=
  match s with
  | c :: rest => if isspace c then lstrip rest else s
  | [] => []
  end.

(** [s.rstrip()] *)
Fixpoint rstrip (s : str) : str :=
  match s with
  | [] => []
  | c :: rest =>
      match rstrip rest with
      | [] => if isspace c then [] else [c]
      | r => c :: r
      end
  end.

(** [s.strip()] *)
Definition strip (s : str) : str := rstrip (lstrip s).

(** [s.split()]: the maximal runs of non-whitespace characters, in order.
    A character that is not whitespace extends the token that starts right
    after it, or starts a token of its own. *)
Definition token_follows (rest : str) : bool :=
  match rest with d :: _ => negb (isspace d) | [] => false end.

Fixpoint split (s : str) : list str :=
  match s with
  | [] => []
  | c :: rest =>
      let ts := split rest in
      if isspace c then ts
      else if token_follows rest
           then match ts with t :: ts' => (c :: t) :: ts' | [] => [[c]] end
           else [c] :: ts
  end.

(** [sep.join(ts)] *)
Fixpoint join (sep : str) (ts : list str) : str :=
  match ts with
  | [] => []
  | [t] => t
  | t :: ts' => t ++ sep ++ join sep ts'
  end.

(** The truth value of a string or of a list: [bool(s)]. *)
Definition nonempty {A} (s : list A) : bool :=
  match s with [] => false | _ => true end.

(** [c in s] for a one-character [c] *)
Definition contains (c : N) (s : str) : bool := existsb (N.eqb c) s.

(** [s.split(c, 1)] for a one-character separator that occurs in [s]:
    the text before the first [c] and the text after it. *)
Fixpoint split1 (c : N) (s : str) : str * str :=
  match s with
  | [] => ([], [])
  | d :: rest =>
      if d =? c then ([], rest)
      else let '(a, b) := split1 c rest in (d :: a, b)
  end.

(** ** The three regular expressions of [_normalize_answer] *)

(** [\w]: alphanumeric or underscore. *)
Definition is_word (c : N) : bool := isalnum c || (c =? 95).

Definition word_at (c : option N) : bool :=
  match c with Some c => is_word c | None => false end.

(** [\b] between two neighbouring positions ([None] outside the string). *)
Definition boundary (a b : option N) : bool := xorb (word_at a) (word_at b).

Fixpoint starts_with (w s : str) : bool :=
  match w, s with
  | [], _ => true
  | a :: w', b :: s' => (a =? b) && starts_with w' s'
  | _ :: _, [] => false
  end.

(** [\bword\b] matches at the head of [s], [prev] being the character before. *)
Definition matches_at (word : str) (prev : option N) (s : str) : bool :=
  boundary prev (head s)
  && starts_with word s
  && boundary (last word) (head (drop (length word) s)).

(** [re.sub(rf"\b{word}\b", digit, s)]: scan from the left; at a match emit
    [digit] and skip the matched characters ([skip] of them are left),
    otherwise copy the character. *)
Fixpoint sub_scan (word digit : str) (skip : nat) (prev : option N) (s : str) : str :=
  match s with
  | [] => []
  | c :: rest =>
      match skip with
      | S k => sub_scan word digit k (Some c) rest
      | O =>
          if matches_at word prev s
          then digit ++ sub_scan word digit (length word - 1) (Some c) rest
          else c :: sub_scan word digit 0 (Some c) rest
      end
  end.

Definition sub_word (word digit : str) (s : str) : str :=
  sub_scan word digit 0 None s.

(** [[^0-9a-z\s]] is what is removed; [keep] is its complement. *)
Definition keep (c : N) : bool := is_digit c || is_az c || isspace c.

(** [re.sub(r"[^0-9a-z\s]", "", s)] *)
Definition sub_punct (s : str) : str := List.filter keep s.

(** [re.sub(r"\s+", " ", s)]: the first character of a whitespace run is
    replaced by a space, the rest of the run is dropped. *)
Fixpoint sub_spaces (in_run : bool) (s : str) : str :=
  match s with
  | [] => []
  | c :: rest =>
      if isspace c
      then (if in_run then sub_spaces true rest else 32 :: sub_spaces true rest)
      else c :: sub_spaces false rest
  end.

(** ** [QuestionManager._normalize_answer] *)

Definition NUMBER_WORDS : list (str * str) :=
  [ (lit "zero", lit "0"); (lit "one", lit "1"); (lit "two", lit "2");
    (lit "three", lit "3"); (lit "four", lit "4"); (lit "five", lit "5");
    (lit "six", lit "6"); (lit "seven", lit "7"); (lit "eight", lit "8");
    (lit "nine", lit "9"); (lit "ten", lit "10"); (lit "eleven", lit "11");
    (lit "twelve", lit "12") ].

Definition sub_number_words (s : str) : str :=
  fold_left (fun s wd => sub_word (fst wd) (snd wd) s) NUMBER_WORDS s.

Definition _normalize_answer (s : option str) : str :=
  match s with
  | None => []
  | Some s =>
      let s := nfkd s in
      let s := List.filter (fun ch => combining ch =? 0) s in
      let s := lower s in
      let s := sub_number_words s in
      let s := sub_punct s in
      strip (sub_spaces false s)
  end.

End Strings.
End Py.


(** ** [hashlib.sha256] and [str.encode("utf-8")]

    The digest is computed as FIPS 180-4 describes it, on 32-bit words kept
    in [N] with the wrap-around written out. *)
Module Sha256.
Local Open Scope N_scope.

Definition mask32 : N := 0xffffffff.
Definition add32 (x y : N) : N := (x + y) mod 2 ^ 32.
Definition rotr (n x : N) : N :=
  N.lor (N.shiftr x n) (N.land (N.shiftl x (32 - n)) mask32).
Definition shr (n x : N) : N := N.shiftr x n.
Definition not32 (x : N) : N := N.lxor x mask32.

Definition Ch (x y z : N) : N := N.lxor (N.land x y) (N.land (not32 x) z).
Definition Maj (x y z : N) : N :=
  N.lxor (N.lxor (N.land x y) (N.land x z)) (N.land y z).
Definition Sigma0 (x : N) : N := N.lxor (N.lxor (rotr 2 x) (rotr 13 x)) (rotr 22 x).
Definition Sigma1 (x : N) : N := N.lxor (N.lxor (rotr 6 x) (rotr 11 x)) (rotr 25 x).
Definition sigma0 (x : N) : N := N.lxor (N.lxor (rotr 7 x) (rotr 18 x)) (shr 3 x).
Definition sigma1 (x : N) : N := N.lxor (N.lxor (rotr 17 x) (rotr 19 x)) (shr 10 x).

(** The constants of the standard are defined by what they are: the first
    32 bits of the fractional parts of the cube roots (for [K]) and of the
    square roots (for [H0]) of the first primes. *)
Definition is_prime (n : nat) : bool :=
  (2 <=? n)%nat && forallb (fun d => negb (n mod d =? 0)%nat) (seq 2 (n - 2)).

Definition primes (bound : nat) : list N :=
  map N.of_nat (List.filter is_prime (seq 2 bound)).

(** The integer cube root of a number below [2 ^ 108], bit by bit. *)
Definition cube_root (n : N) : N :=
  fold_left
    (fun r b => let r' := r + 2 ^ N.of_nat b in if r' * r' * r' <=? n then r' else r)
    (rev (seq 0 36)) 0.

Definition K : list N :=
  Eval vm_compute in
    map (fun p => cube_root (p * 2 ^ 96) mod 2 ^ 32) (firstn 64 (primes 320)).

Definition H0 : list N :=
  Eval vm_compute in
    map (fun p => N.sqrt (p * 2 ^ 64) mod 2 ^ 32) (firstn 8 (primes 20)).

(** Big-endian bytes of [x], [n] of them. *)
Fixpoint be_bytes (n : nat) (x : N) : list N :=
  match n with
  | O => []
  | S k => (N.shiftr x (8 * N.of_nat k)) mod 256 :: be_bytes k x
  end.

Definition pad (msg : list N) : list N :=
  let len := N.of_nat (length msg) in
  let zeros := (119 - len mod 64) mod 64 in
  msg ++ [0x80] ++ repeat 0 (N.to_nat zeros) ++ be_bytes 8 (8 * len).

Fixpoint be_words (fuel : nat) (bs : list N) : list N :=
  match fuel, bs with
  | S f, b0 :: b1 :: b2 :: b3 :: rest =>
      (b0 * 2 ^ 24 + b1 * 2 ^ 16 + b2 * 2 ^ 8 + b3) :: be_words f rest
  | _, _ => []
  end.

(** The message schedule: [win] holds the sixteen words [W(t-16) .. W(t-1)]. *)
Fixpoint schedule (n : nat) (win : list N) : list N :=
  match n, win with
  | S k, w0 :: rest =>
      let w := add32 (add32 (sigma1 (nth 14 win 0)) (nth 9 win 0))
                     (add32 (sigma0 (nth 1 win 0)) w0) in
      w0 :: schedule k (rest ++ [w])
  | _, _ => []
  end.

Definition round (v : list N) (kw : N * N) : list N :=
  match v with
  | [a; b; c; d; e; f; g; h] =>
      let t1 := add32 (add32 (add32 h (Sigma1 e)) (add32 (Ch e f g) (fst kw))) (snd kw) in
      let t2 := add32 (Sigma0 a) (Maj a b c) in
      [add32 t1 t2; a; b; c; add32 d t1; e; f; g]
  | _ => v
  end.

Definition compress (h : list N) (block : list N) : list N :=
  let w := schedule 64 (be_words 16 block) in
  let v := fold_left round (combine K w) h in
  map (fun p => add32 (fst p) (snd p)) (combine h v).

Fixpoint blocks (fuel : nat) (bs : list N) : list (list N) :=
  match fuel, bs with
  | S f, _ :: _ => firstn 64 bs :: blocks f (skipn 64 bs)
  | _, _ => []
  end.

(** [hashlib.sha256(msg).digest()] as eight 32-bit words. *)
Definition sha256 (msg : list N) : list N :=
  let p := pad msg in
  fold_left compress (blocks (length p) p) H0.

Definition hex_digit (d : N) : N := if d <? 10 then 48 + d else 87 + d.

Fixpoint hex_of (n : nat) (x : N) : str :=
  match n with
  | O => []
  | S k => hex_digit ((N.shiftr x (4 * N.of_nat k)) mod 16) :: hex_of k x
  end.

(** [h.hexdigest()] *)
Definition hexdigest (h : list N) : str := flat_map (hex_of 8) h.

(** [s.encode("utf-8")].  Text decoded from a UTF-8 file holds scalar values
    only, and on those this is the encoder. *)
Definition utf8_char (c : N) : list N :=
  if c <? 0x80 then [c]
  else if c <? 0x800 then [0xc0 + N.shiftr c 6; 0x80 + c mod 64]
  else if c <? 0x10000 then
    [0xe0 + N.shiftr c 12; 0x80 + (N.shiftr c 6) mod 64; 0x80 + c mod 64]
  else
    [0xf0 + (N.shiftr c 18) mod 8; 0x80 + (N.shiftr c 12) mod 64;
     0x80 + (N.shiftr c 6) mod 64; 0x80 + c mod 64].

Definition utf8 (s : str) : list N := flat_map utf8_char s.

End Sha256.


(** ** The class [QuestionManager] *)
Module QM.
Import Py Sha256.

(** A parsed line: the dict [{"id": .., "question": .., "answer": ..}]. *)
Record entry := { q_id : str; q_question : str; q_answer : str }.

(** The exceptions that leave the class, with their messages: the three it
    raises itself, and the two that [open()] and the iteration over the
    file can raise and that [except Exception: raise] passes on.
    [UnicodeDecodeError] is a subclass of [ValueError]; [OSError] stands
    for the subclasses of [OSError] other than [FileNotFoundError]
    ([PermissionError] among them). *)
Inductive exn :=
| FileNotFoundError
| ValueError (msg : string)
| KeyError (msg : string)
| UnicodeDecodeError (msg : string)
| OSError (msg : string).

(** [isinstance(e, ValueError)] *)
Definition is_ValueError (e : exn) : bool :=
  match e with
  | ValueError _ | UnicodeDecodeError _ => true
  | _ => false
  end.

Definition ResourceNotFound : exn := FileNotFoundError.
Definition EmptyStore : exn := ValueError "No questions found in file".
Definition Exhausted : exn := ValueError "No more unused questions available".
Definition UnknownQuestion : exn := KeyError "Invalid question id".

Inductive outcome (A : Type) :=
| Return (a : A)
| Raise (e : exn).
Arguments Return {A} a.
Arguments Raise {A} e.

(** Why a regular file cannot be read to its end: its bytes are not UTF-8
    at some line, or [open()] or a read fails ([PermissionError], an I/O
    error).  [msg] is the [str] of the exception. *)
Inductive read_error :=
| Undecodable (msg : string)
| Unopenable (msg : string).

Definition raised_by (err : read_error) : exn :=
  match err with
  | Undecodable msg => UnicodeDecodeError msg
  | Unopenable msg => OSError msg
  end.

(** What is found at [self.file_path] when a call looks: nothing, something
    that is not a regular file, a regular file with its modification time
    and the lines that iterating over it yields, or a regular file on which
    [open()] or the iteration raises.  A modification time is only ever
    compared with [!=]; it is an integer here. *)
Inductive path_state :=
| Absent
| NotRegular (mt : Z)
| Regular (mt : Z) (lines : list str)
| Failing (mt : Z) (err : read_error).

(** [os.path.getmtime]; [None] is [OSError]. *)
Definition getmtime (fs : path_state) : option Z :=
  match fs with
  | Absent => None
  | NotRegular mt | Regular mt _ | Failing mt _ => Some mt
  end.

(** [os.path.isfile] *)
Definition isfile (fs : path_state) : bool :=
  match fs with Regular _ _ | Failing _ _ => true | _ => false end.

(** [with open(..) as fh: for raw in fh]: the lines, or the exception that
    ends the iteration.  The loop has no effect but on the local [parsed],
    so an exception after some lines leaves nothing behind.  On a path
    that is no regular file [open()] is never reached. *)
Definition reading (fs : path_state) : outcome (list str) :=
  match fs with
  | Regular _ lines => Return lines
  | Failing _ err => Raise (raised_by err)
  | Absent => Raise FileNotFoundError
  | NotRegular _ => Raise (OSError "Is a directory")
  end.

(** The lines of a file that can be read. *)
Definition read_lines (fs : path_state) : list str :=
  match fs with Regular _ lines => lines | _ => [] end.

(** The attributes [_used], [_questions], [_id_map] and [_mtime]. *)
Record QuestionManager := {
  _used : gset str;
  _questions : list entry;
  _id_map : gmap str entry;
  _mtime : option Z
}.

(** A value of the dict that [get_random_question] returns. *)
Inductive value :=
| VStr (s : str)
| VList (l : list str).

(** A method: it runs on [self] and returns or raises; what it did to
    [self] before raising stays done.  Calls are taken one at a time, so
    [with self._lock] is the block it guards. *)
Definition M (A : Type) : Type := QuestionManager -> outcome A * QuestionManager.

Definition ret {A} (a : A) : M A := fun self => (Return a, self).
Definition raise {A} (e : exn) : M A := fun self => (Raise e, self).
Definition bind {A B} (m : M A) (k : A -> M B) : M B :=
  fun self =>
    match m self with
    | (Return a, self') => k a self'
    | (Raise e, self') => (Raise e, self')
    end.

Notation "m ;;; k" := (bind m (fun _ => k))
  (at level 100, k at level 200, right associativity).

Section Manager.
Context {U : Unicode}.

(** [_compute_id] *)
Definition _compute_id (question_text : str) : str :=
  hexdigest (sha256 (utf8 (strip question_text))).

(** The body of the loop of [_load_questions_internal] for one line:
    the record it appends, if any. *)
Definition parse_line (raw : str) : option entry :=
  let line := strip raw in
  if negb (nonempty line) then None
  else if negb (contains 124 line) then None
  else
    let parts := split1 124 line in
    let question := strip (fst parts) in
    let answer := strip (snd parts) in
    if nonempty question && nonempty answer
    then Some {| q_id := _compute_id question; q_question := question; q_answer := answer |}
    else None.

(** The loop: [parsed] grows by [append]. *)
Definition parse_lines (lines : list str) : list entry :=
  fold_left
    (fun parsed raw =>
       match parse_line raw with
       | Some rec => parsed ++ [rec]
       | None => parsed
       end)
    lines [].

(** [{rec["id"]: rec for rec in parsed}]: one insertion per record, in order. *)
Definition build_id_map (parsed : list entry) : gmap str entry :=
  fold_left (fun m rec => <[q_id rec := rec]> m) parsed ∅.

(** [_load_questions_internal] *)
Definition _load_questions_internal (fs : path_state) : M unit :=
  fun self =>
    if negb (isfile fs) then (Raise FileNotFoundError, self)
    else
      match reading fs with
      | Raise e => (Raise e, self)
      | Return lines =>
          let parsed := parse_lines lines in
          match parsed with
          | [] => (Raise (ValueError "No questions found in file"), self)
          | _ :: _ =>
              (Return tt,
               {| _used := _used self; _questions := parsed;
                  _id_map := build_id_map parsed; _mtime := _mtime self |})
          end
      end.

Definition set_mtime (m : Z) : M unit :=
  fun self =>
    (Return tt,
     {| _used := _used self; _questions := _questions self;
        _id_map := _id_map self; _mtime := Some m |}).

(** [force or self._mtime is None or self._mtime != mtime] *)
Definition stale (force : bool) (recorded : option Z) (m : Z) : bool :=
  force || match recorded with None => true | Some m0 => negb (m0 =? m)%Z end.

(** [_reload_if_needed] *)
Definition _reload_if_needed (force : bool) (fs : path_state) : M unit :=
  fun self =>
    match getmtime fs with
    | None => (Raise FileNotFoundError, self)
    | Some m =>
        if stale force (_mtime self) m
        then (_load_questions_internal fs ;;; set_mtime m) self
        else (Return tt, self)
    end.

(** [load_questions] *)
Definition load_questions (fs : path_state) : M (list (str * str)) :=
  _reload_if_needed false fs ;;;
  fun self => (Return (map (fun rec => (q_question rec, q_answer rec)) (_questions self)), self).

(** [force_reload] *)
Definition force_reload (fs : path_state) : M unit :=
  _reload_if_needed true fs.

Definition unused (self : QuestionManager) (rec : entry) : bool :=
  negb (bool_decide (q_id rec ∈ _used self)).

Definition add_used (i : str) : M unit :=
  fun self =>
    (Return tt,
     {| _used := {[ i ]} ∪ _used self; _questions := _questions self;
        _id_map := _id_map self; _mtime := _mtime self |}).

(** [get_random_question]; [choice] is the draw of [random.choice], taken
    below the number of available records. *)
Definition get_random_question (fs : path_state) (choice : nat)
  : M (list (string * value)) :=
  _reload_if_needed false fs ;;;
  fun self =>
    let available := List.filter (unused self) (_questions self) in
    match available with
    | [] => (Raise (ValueError "No more unused questions available"), self)
    | first :: _ =>
        let chosen := nth (choice mod length available) available first in
        (add_used (q_id chosen) ;;;
         let words := split (q_question chosen) in
         ret [ ("id"%string, VStr (q_id chosen));
               ("question"%string, VStr (q_question chosen));
               ("words"%string, VList words) ]) self
    end.

(** [validate_answer]; [user_answer] is [None] for Python's [None]. *)
Definition validate_answer (fs : path_state) (question_id : str)
    (user_answer : option str) : M bool :=
  _reload_if_needed false fs ;;;
  fun self =>
    match _id_map self !! question_id with
    | None => (Raise (KeyError "Invalid question id"), self)
    | Some rec =>
        let correct_answer := q_answer rec in
        match user_answer with
        | None => (Return false, self)
        | Some _ =>
            let norm_correct := _normalize_answer (Some correct_answer) in
            let norm_user := _normalize_answer user_answer in
            (Return (bool_decide (norm_correct = norm_user)), self)
        end
    end.

(** [clear_cache] *)
Definition clear_cache : M unit :=
  fun self =>
    (Return tt,
     {| _used := ∅; _questions := _questions self;
        _id_map := _id_map self; _mtime := _mtime self |}).

(** [get_cache_size] *)
Definition get_cache_size : M nat :=
  fun self => (Return (size (_used self)), self).

(** [__init__]: the empty attributes, then the forced first load. *)
Definition blank : QuestionManager :=
  {| _used := ∅; _questions := []; _id_map := ∅; _mtime := None |}.

Definition __init__ (fs : path_state) : outcome QuestionManager :=
  match _reload_if_needed true fs blank with
  | (Return _, self) => Return self
  | (Raise e, _) => Raise e
  end.

End Manager.
End QM.


(** ** Vocabulary of the statements *)
Module Spec.
Import Py QM.
Local Open Scope N_scope.

(** An ASCII digit or an ASCII lowercase letter. *)
Definition alnum_lower (c : N) : bool := is_digit c || is_az c.

(** No two neighbouring characters are both the space. *)
Fixpoint no_double_space (s : str) : bool :=
  match s with
  | a :: (b :: _) as rest => negb ((a =? 32) && (b =? 32)) && no_double_space rest
  | _ => true
  end.

(** A token of a normalised answer: digits and lowercase letters, at least one. *)
Definition token (t : str) : Prop :=
  t <> [] /\ Forall (fun c => alnum_lower c = true) t.

(** What [str.split()] is documented to return: [s] is made of the tokens
    [ts] in order, each a non-empty run of characters that are not
    whitespace and that ends at whitespace or at the end of [s], with
    nothing but whitespace around them. *)
Inductive tokenized {U : Unicode} : str -> list str -> Prop :=
| tokenized_nil : tokenized [] []
| tokenized_space c s ts :
    isspace c = true -> tokenized s ts -> tokenized (c :: s) ts
| tokenized_token t s ts :
    t <> [] -> Forall (fun c => isspace c = false) t -> token_follows s = false ->
    tokenized s ts -> tokenized (t ++ s) (t :: ts).

(** Consecutive calls of [get_random_question], one draw each; the run
    stops at the first call that raises. *)
Fixpoint dispense {U : Unicode} (fs : path_state) (draws : list nat) (self : QuestionManager)
  : list (list (string * value)) * outcome unit * QuestionManager :=
  match draws with
  | [] => ([], Return tt, self)
  | r :: draws' =>
      match get_random_question fs r self with
      | (Return q, self') =>
          let '(qs, res, self'') := dispense fs draws' self' in
          (q :: qs, res, self'')
      | (Raise e, self') => ([], Raise e, self')
      end
  end.

(** A lowercase hexadecimal digit. *)
Definition is_hex (c : N) : bool := is_digit c || ((97 <=? c) && (c <=? 102)).

(** Texts with their SHA-256 digests: the empty message and the three
    messages of one and two blocks that are published with the standard
    (3, 56 and 112 bytes), a text whose characters take two, three and
    four bytes in UTF-8, and a question of the sample file. *)
Definition known_digests : list (str * string) :=
  [ ([], "e3b0c44298fc1c149afbf4c8996fb92427ae41e4649b934ca495991b7852b855"%string);
    (lit "abc", "ba7816bf8f01cfea414140de5dae2223b00361a396177a9cb410ff61f20015ad"%string);
    (lit "abcdbcdecdefdefgefghfghighijhijkijkljklmklmnlmnomnopnopq",
     "248d6a61d20638b8e5c026930c3e6039a33ce45964ff2167f6ecedd419db06c1"%string);
    (lit ("abcdefghbcdefghicdefghijdefghijkefghijklfghijklmghijklmnhijklmno"
          ++ "ijklmnopjklmnopqklmnopqrlmnopqrsmnopqrstnopqrstu"),
     "cf5b16a778af8380036ce59e7b0492370b249b11e8f07a51afac45037afee9d1"%string);
    ([233; 8364; 128512],
     "df9226927fd572c1ee66eec85de1bb139497614899f36e4e90474cb71f6ef9d0"%string);
    (lit "Capital of France?",
     "221acfeb028204b9565adf8ef233b883e07b26e68056c185a3f4a7718547a617"%string) ].

(** [t] is [s] without the whitespace around it: [s] is [t] between two
    runs of whitespace, and [t] neither starts nor ends with whitespace. *)
Definition trimmed {U : Unicode} (s t : str) : Prop :=
  exists l r,
    s = l ++ t ++ r
    /\ Forall (fun c => isspace c = true) l
    /\ Forall (fun c => isspace c = true) r
    /\ (forall c, head t = Some c -> isspace c = false)
    /\ (forall c, last t = Some c -> isspace c = false).

(** The load contract for one line, in the words of the specification:
    the line has a delimiter ([|], code 124); the question is what stands
    before the first delimiter and the answer is all that stands after it,
    both trimmed and neither empty; the id is derived from the question. *)
Definition accepted {U : Unicode} (raw : str) (rec : entry) : Prop :=
  exists a b,
    raw = a ++ 124 :: b
    /\ ~ In 124 a
    /\ trimmed a (q_question rec)
    /\ trimmed b (q_answer rec)
    /\ q_question rec <> []
    /\ q_answer rec <> []
    /\ q_id rec = _compute_id (q_question rec).

(** The load contract for a file: the records are those of the accepted
    lines, in the order of the lines; every other line is skipped. *)
Inductive kept {U : Unicode} : list str -> list entry -> Prop :=
| kept_nil : kept [] []
| kept_line raw rec lines recs :
    accepted raw rec -> kept lines recs -> kept (raw :: lines) (rec :: recs)
| kept_skip raw lines recs :
    (forall rec, ~ accepted raw rec) -> kept lines recs -> kept (raw :: lines) recs.

(** [d.get(k)] on a returned dict. *)
Definition field (k : string) (d : list (string * value)) : option value :=
  snd <$> List.find (fun kv => String.eqb (fst kv) k) d.

(** The ids of the loaded records, as a set. *)
Definition ids (self : QuestionManager) : gset str :=
  list_to_set (map q_id (_questions self)).

(** One substitution, seen on a whole token. *)
Definition subst1 (w d t : str) : str := if bool_decide (t = w) then d else t.

(** The thirteen substitutions, in the order of the table, on a whole token. *)
Definition number_word (t : str) : str :=
  fold_left (fun t wd => subst1 (fst wd) (snd wd) t) NUMBER_WORDS t.

Definition is_number_word (t : str) : bool :=
  existsb (fun wd => bool_decide (t = fst wd)) NUMBER_WORDS.

(** Some whitespace-separated token of [y] is one of the thirteen words. *)
Definition has_number_word {U : Unicode} (y : str) : bool :=
  existsb is_number_word (split y).

(** ** Auxiliary notions of the proofs *)

(** The loop body of the loader with the line split before it is trimmed. *)
Definition split_then_trim {U : Unicode} (raw : str) : option entry :=
  if forallb isspace raw then None
  else if negb (contains 124 raw) then None
  else
    let question := strip (fst (split1 124 raw)) in
    let answer := strip (snd (split1 124 raw)) in
    if negb (nonempty question) || negb (nonempty answer) then None
    else Some {| q_id := _compute_id question; q_question := question; q_answer := answer |}.

(** What loading makes of the path, whatever the manager: the exception it
    raises, or the records it installs. *)
Definition loading {U : Unicode} (fs : path_state) : outcome (list entry) :=
  match fs with
  | Absent | NotRegular _ => Raise ResourceNotFound
  | Failing _ err => Raise (raised_by err)
  | Regular _ lines =>
      if nonempty (parse_lines lines) then Return (parse_lines lines) else Raise EmptyStore
  end.

(** Every character is a word character of the regular expressions. *)
Definition word_chars {U : Unicode} (s : str) : Prop :=
  Forall (fun c => is_word c = true) s.

(** What is left of the scan when it stands before a character that is not
    a word character: the character is copied. *)
Definition tail_scan {U : Unicode} (word digit rest : str) : str :=
  match rest with
  | [] => []
  | c :: r => c :: sub_scan word digit 0 (Some c) r
  end.

(** ASCII text, and an ASCII character if any. *)
Definition asc (s : str) : Prop := Forall (fun c => is_ascii c = true) s.
Definition asc_opt (o : option N) : Prop := forall c, o = Some c -> is_ascii c = true.

(** The state after a successful (re)load at modification time [m]. *)
Definition reloaded {U : Unicode} (fs : path_state) (m : Z) (self : QuestionManager)
  : QuestionManager :=
  {| _used := _used self;
     _questions := parse_lines (read_lines fs);
     _id_map := build_id_map (parse_lines (read_lines fs));
     _mtime := Some m |}.

(** The three reading calls raise [e] and leave the manager as it was. *)
Definition reads_raise {U : Unicode} (fs : path_state) (self : QuestionManager)
    (choice : nat) (question_id : str) (user_answer : option str) (e : exn) : Prop :=
  load_questions fs self = (Raise e, self)
  /\ get_random_question fs choice self = (Raise e, self)
  /\ validate_answer fs question_id user_answer self = (Raise e, self).

(** The dict of a record, as [get_random_question] builds it. *)
Definition question_dict {U : Unicode} (chosen : entry) : list (string * value) :=
  [ ("id"%string, VStr (q_id chosen));
    ("question"%string, VStr (q_question chosen));
    ("words"%string, VList (split (q_question chosen))) ].

(** [self] after [chosen] was handed out. *)
Definition mark_used (chosen : entry) (self : QuestionManager) : QuestionManager :=
  {| _used := {[ q_id chosen ]} ∪ _used self; _questions := _questions self;
     _id_map := _id_map self; _mtime := _mtime self |}.

(** ** Sample files *)

(** A file with a blank line, a line without delimiter, a line with an
    empty question, and two lines with the same question. *)
Definition sample_file : path_state :=
  Regular 5
    [ lit "Capital of France? | Paris";
      lit "";
      lit "no delimiter here";
      lit " | x";
      lit "How many legs has a spider? | eight";
      lit "  Capital of France?|Lutetia  " ].

(** Two records, one question. *)
Definition duplicate_file : path_state :=
  Regular 1 [ lit "Capital of France? | Paris"; lit "Capital of France? | Lutetia" ].

(** The manager constructed on a file, with the ASCII tables. *)
Definition loaded (fs : path_state) : QuestionManager :=
  match @__init__ ascii_unicode fs with
  | Return self => self
  | Raise _ => blank
  end.

(** The manager on [sample_file] after three draws: all of its ids are used. *)
Definition exhausted_sample : QuestionManager :=
  snd (@dispense ascii_unicode sample_file [0; 0; 0]%nat (loaded sample_file)).

(** A question drawn from [sample_file]. *)
Definition sample_question : list (string * value) :=
  match fst (@get_random_question ascii_unicode sample_file 1 (loaded sample_file)) with
  | Return q => q
  | Raise _ => []
  end.

End Spec.

(** ** Sequences of calls of the public methods *)
Module Calls.
Import Py QM Spec.

(** The store part of a manager: everything but the used set. *)
Definition same_store (a b : QuestionManager) : Prop :=
  _questions a = _questions b /\ _id_map a = _id_map b /\ _mtime a = _mtime b.

(** One call of a public method of the class. *)
Inductive call :=
| LoadQuestions
| ForceReload
| GetRandomQuestion (choice : nat)
| ValidateAnswer (question_id : str) (user_answer : option str)
| ClearCache
| GetCacheSize.

(** What a call returns. *)
Inductive returned :=
| RNone
| RPairs (l : list (str * str))
| RQuestion (q : list (string * value))
| RBool (b : bool)
| RInt (n : nat).

Definition lift {A} (f : A -> returned) (m : M A) : M returned :=
  fun self =>
    match m self with
    | (Return a, self') => (Return (f a), self')
    | (Raise e, self') => (Raise e, self')
    end.

Definition is_clear (c : call) : bool :=
  match c with ClearCache => true | _ => false end.

(** The id of the question a call handed out, if it did. *)
Definition dispensed_id (r : outcome returned) : option str :=
  match r with
  | Return (RQuestion q) =>
      match field "id" q with Some (VStr i) => Some i | _ => None end
  | _ => None
  end.

Section Calls.
Context {U : Unicode}.

(** The call [c], made while the path is in state [fs]. *)
Definition perform (fs : path_state) (c : call) : M returned :=
  match c with
  | LoadQuestions => lift RPairs (load_questions fs)
  | ForceReload => lift (fun _ => RNone) (force_reload fs)
  | GetRandomQuestion choice => lift RQuestion (get_random_question fs choice)
  | ValidateAnswer question_id user_answer =>
      lift RBool (validate_answer fs question_id user_answer)
  | ClearCache => lift (fun _ => RNone) clear_cache
  | GetCacheSize => lift RInt get_cache_size
  end.

(** Calls one after the other, each with the state of the path at its
    time; a call that raises does not stop the next ones. *)
Fixpoint run (calls : list (path_state * call)) (self : QuestionManager)
  : list (outcome returned) * QuestionManager :=
  match calls with
  | [] => ([], self)
  | (fs, c) :: calls' =>
      let '(r, self') := perform fs c self in
      let '(rs, self'') := run calls' self' in
      (r :: rs, self'')
  end.

(** A record as the loader makes them. *)
Definition good_entry (rec : entry) : Prop :=
  q_id rec = _compute_id (q_question rec)
  /\ q_question rec <> [] /\ q_answer rec <> []
  /\ strip (q_question rec) = q_question rec
  /\ strip (q_answer rec) = q_answer rec
  /\ contains 124 (q_question rec) = false.

(** A manager as the constructor and the methods leave it. *)
Definition consistent (self : QuestionManager) : Prop :=
  _questions self <> []
  /\ Forall good_entry (_questions self)
  /\ _id_map self = build_id_map (_questions self)
  /\ _mtime self <> None.

End Calls.
End Calls.

(** ** The request handlers of [app.py] *)
Module App.
Import Py QM Spec.

(** A value of a JSON body. *)
Inductive jvalue :=
| JString (s : str)
| JArray (l : list str)
| JBool (b : bool).

(** What a handler returns: the dict given to [jsonify], and the status. *)
Definition response : Type := list (string * jvalue) * nat.

Definition jsonify_value (v : value) : jvalue :=
  match v with
  | VStr s => JString s
  | VList l => JArray l
  end.

(** [jsonify(q)] for the dict of [get_random_question]. *)
Definition jsonify (q : list (string * value)) : list (string * jvalue) :=
  map (fun kv => (fst kv, jsonify_value (snd kv))) q.

(** [str(e)]; [file_path] is the path in the message of
    [FileNotFoundError].  [str] of a [KeyError] is the [repr] of its
    message, and the one message raised has nothing to escape.  The
    exceptions of reading carry their [str]. *)
Definition str_of_exn (file_path : str) (e : exn) : str :=
  match e with
  | FileNotFoundError => lit "Questions file not found: " ++ file_path
  | ValueError msg | UnicodeDecodeError msg | OSError msg => lit msg
  | KeyError msg => lit "'" ++ lit msg ++ lit "'"
  end.

(** What [api_validate] sees of the request body.  [Unreadable] is a body
    on which [request.get_json(force=True)] raises, or a parsed value that
    is true and has no [get]; [detail] is the [str] of the exception.
    [Falsy] is a parsed value that is false ([None], [{}], [[]], [0], [""],
    [False]).  [Object] is a non-empty dict; a field is [None] when the key
    is absent or null, and otherwise the [str()] of its value, which is all
    the code uses of it. *)
Inductive request_json :=
| Unreadable (detail : str)
| Falsy
| Object (question_id answer : option str).

Section Handlers.
Context {U : Unicode} (file_path : str).

Definition internal_error (detail : str) : response :=
  ([ ("error"%string, JString (lit "Internal server error"));
     ("detail"%string, JString detail) ], 500%nat).

(** [api_get_question] *)
Definition api_get_question (fs : path_state) (choice : nat)
    (question_manager : QuestionManager) : response * QuestionManager :=
  match get_random_question fs choice question_manager with
  | (Return q, qm) => ((jsonify q, 200%nat), qm)
  | (Raise e, qm) =>
      match e with
      | FileNotFoundError =>
          (([ ("error"%string, JString (str_of_exn file_path e)) ], 500%nat), qm)
      | ValueError _ | UnicodeDecodeError _ =>
          (([ ("error"%string, JString (str_of_exn file_path e)) ], 404%nat), qm)
      | KeyError _ | OSError _ => (internal_error (str_of_exn file_path e), qm)
      end
  end.

(** [api_validate] *)
Definition api_validate (fs : path_state) (payload : request_json)
    (question_manager : QuestionManager) : response * QuestionManager :=
  match payload with
  | Unreadable detail => (internal_error detail, question_manager)
  | Falsy =>
      (([ ("error"%string, JString (lit "Missing JSON payload")) ], 400%nat),
       question_manager)
  | Object question_id answer =>
      match question_id, answer with
      | Some qid, Some ans =>
          match validate_answer fs qid (Some ans) question_manager with
          | (Return correct, qm) => (([ ("correct"%string, JBool correct) ], 200%nat), qm)
          | (Raise e, qm) =>
              match e with
              | KeyError _ | ValueError _ | UnicodeDecodeError _ =>
                  (([ ("error"%string, JString (str_of_exn file_path e)) ], 400%nat), qm)
              | FileNotFoundError | OSError _ =>
                  (internal_error (str_of_exn file_path e), qm)
              end
          end
      | _, _ =>
          (([ ("error"%string,
               JString (lit "Both 'question_id' and 'answer' are required")) ], 400%nat),
           question_manager)
      end
  end.

(** [api_reset] *)
Definition api_reset (question_manager : QuestionManager) : response * QuestionManager :=
  match clear_cache question_manager with
  | (Return _, qm) =>
      (([ ("message"%string, JString (lit "Cache cleared successfully")) ], 200%nat), qm)
  | (Raise e, qm) =>
      (([ ("error"%string, JString (lit "Could not clear cache"));
          ("detail"%string, JString (str_of_exn file_path e)) ], 500%nat), qm)
  end.

End Handlers.
End App.

Import Py QM Spec.
Local Open Scope N_scope.

(** * Characters *)

Lemma ascii_unicode_laws : UnicodeLaws ascii_unicode.
Proof.
  split; simpl; intros.
  - reflexivity.
  - reflexivity.
  - reflexivity.
  - rewrite H. reflexivity.
  - rewrite H. reflexivity.
Qed.

(** Closed facts about concrete inputs, one conjunct at a time. *)
Ltac compute_each :=
  intros;
  repeat match goal with |- _ /\ _ => split end;
  (vm_compute; first [reflexivity | discriminate]).

Ltac chars :=
  unfold alnum_lower, ascii_isspace, ascii_isalnum, ascii_lower in *;
  unfold is_ascii, is_digit, is_az, is_AZ in *;
  repeat match goal with
    | H : _ = true |- _ => revert H
    | H : _ = false |- _ => revert H
    end;
  repeat match goal with
    | |- context [N.leb ?a ?b] => destruct (N.leb_spec a b)
    | |- context [N.ltb ?a ?b] => destruct (N.ltb_spec a b)
    | |- context [N.eqb ?a ?b] => destruct (N.eqb_spec a b)
    end;
  simpl; intros; simpl in *; try congruence; try lia.

Section Characters.
Context {U : Unicode} {L : UnicodeLaws U}.

Lemma alnum_lower_ascii c : alnum_lower c = true -> is_ascii c = true.
Proof. chars. Qed.

Lemma alnum_lower_not_space c : alnum_lower c = true -> isspace c = false.
Proof.
  intros H. rewrite isspace_ascii by now apply alnum_lower_ascii.
  chars.
Qed.

Lemma alnum_lower_word c : alnum_lower c = true -> is_word c = true.
Proof.
  intros H. unfold is_word. rewrite isalnum_ascii by now apply alnum_lower_ascii.
  chars.
Qed.

Lemma alnum_lower_keep c : alnum_lower c = true -> keep c = true.
Proof.
  unfold keep, alnum_lower. intros H. rewrite H. reflexivity.
Qed.

Lemma alnum_lower_not_32 c : alnum_lower c = true -> c <> 32.
Proof. chars. Qed.

Lemma alnum_lower_lower c : alnum_lower c = true -> ascii_lower c = c.
Proof. chars. Qed.

Lemma space_isspace : isspace 32 = true.
Proof. rewrite isspace_ascii by reflexivity. reflexivity. Qed.

Lemma space_not_word : is_word 32 = false.
Proof. unfold is_word. rewrite isalnum_ascii by reflexivity. reflexivity. Qed.

Lemma bar_not_space : isspace 124 = false.
Proof. rewrite isspace_ascii by reflexivity. reflexivity. Qed.

End Characters.

(** * Whitespace: [strip], [split], [join] and the collapsing pattern *)

Lemma cons_inj {A} (a b : A) (l l' : list A) : a :: l = b :: l' -> a = b /\ l = l'.
Proof. intros H. injection H as -> ->. split; reflexivity. Qed.

Section Whitespace.
Context {U : Unicode}.

Lemma split_cons c rest :
  split (c :: rest) =
  if isspace c then split rest
  else if token_follows rest
       then match split rest with t :: ts' => (c :: t) :: ts' | [] => [[c]] end
       else [c] :: split rest.
Proof. reflexivity. Qed.

Lemma rstrip_cons c s :
  rstrip (c :: s) =
  match rstrip s with [] => if isspace c then [] else [c] | r => c :: r end.
Proof. reflexivity. Qed.

Lemma rstrip_cons_keep c s : isspace c = false -> rstrip (c :: s) = c :: rstrip s.
Proof. intros H. rewrite rstrip_cons, H. now destruct (rstrip s). Qed.

Lemma join_cons sep t ts : ts <> [] -> join sep (t :: ts) = t ++ sep ++ join sep ts.
Proof. destruct ts; [congruence | reflexivity]. Qed.

Lemma join_cons_cons sep c t ts : join sep ((c :: t) :: ts) = c :: join sep (t :: ts).
Proof. destruct ts; reflexivity. Qed.

Lemma join_nil sep ts : Forall (fun t => t <> []) ts -> join sep ts = [] -> ts = [].
Proof.
  intros H. destruct ts as [|t ts]; [reflexivity|].
  apply Forall_inv in H. destruct t; [congruence|].
  rewrite join_cons_cons. discriminate.
Qed.

(** Every token of [split] is a non-empty run of non-whitespace characters
    of the text. *)
Lemma split_tokens (P : N -> Prop) s :
  Forall P s ->
  Forall (fun t => t <> [] /\ Forall (fun c => P c /\ isspace c = false) t) (split s).
Proof.
  induction s as [|c rest IH]; intros H; [constructor|].
  apply Forall_cons_iff in H as [Hc Hrest]. specialize (IH Hrest).
  rewrite split_cons. destruct (isspace c) eqn:Ec; [exact IH|].
  destruct (token_follows rest).
  - destruct (split rest) as [|t ts'].
    + repeat constructor; [congruence | assumption | assumption].
    + apply Forall_cons_iff in IH as [[_ Ht] Hts].
      constructor; [|assumption].
      split; [congruence|]. constructor; auto.
  - constructor; [|assumption].
    split; [congruence|]. repeat constructor; assumption.
Qed.

Lemma split_nonempty s : Forall (fun t => t <> []) (split s).
Proof.
  eapply List.Forall_impl; [|apply (split_tokens (fun _ => True))].
  - simpl. tauto.
  - now apply List.Forall_forall.
Qed.

Lemma lstrip_sub_spaces_true s : lstrip (sub_spaces true s) = sub_spaces true s.
Proof.
  induction s as [|c rest IH]; [reflexivity|]. simpl.
  destruct (isspace c) eqn:Ec; [exact IH|]. simpl. now rewrite Ec.
Qed.

Lemma sub_spaces_keep b c s : isspace c = false -> sub_spaces b (c :: s) = c :: sub_spaces false s.
Proof. intros H. simpl. now rewrite H. Qed.

Lemma lstrip_sub_spaces s :
  isspace 32 = true -> lstrip (sub_spaces false s) = sub_spaces true s.
Proof.
  intros Hsp. destruct s as [|c rest]; [reflexivity|]. simpl.
  destruct (isspace c) eqn:Ec; simpl.
  - rewrite Hsp. apply lstrip_sub_spaces_true.
  - now rewrite Ec.
Qed.

Lemma rstrip_sub_spaces s :
  isspace 32 = true -> rstrip (sub_spaces true s) = join [32] (split s).
Proof.
  intros Hsp. induction s as [|c rest IH]; [reflexivity|].
  rewrite split_cons. destruct (isspace c) eqn:Ec.
  { simpl. rewrite Ec. exact IH. }
  rewrite sub_spaces_keep, rstrip_cons_keep by assumption.
  destruct rest as [|d rest']; [reflexivity|].
  unfold token_follows. destruct (isspace d) eqn:Ed; simpl negb; cbv iota.
  - assert (Hs : sub_spaces false (d :: rest') = 32 :: sub_spaces true (d :: rest'))
      by (simpl; now rewrite Ed).
    rewrite Hs, rstrip_cons, IH, Hsp.
    pose proof (split_nonempty (d :: rest')) as Hne.
    destruct (split (d :: rest')) as [|t ts] eqn:Et; [reflexivity|].
    destruct (join [32] (t :: ts)) eqn:Ej.
    + apply join_nil in Ej; [discriminate | assumption].
    + rewrite (join_cons [32] [c] (t :: ts)) by discriminate.
      rewrite Ej. reflexivity.
  - assert (Hs : sub_spaces false (d :: rest') = sub_spaces true (d :: rest'))
      by (simpl; now rewrite Ed).
    rewrite Hs, IH.
    destruct (split (d :: rest')) as [|t ts]; [reflexivity|].
    now rewrite join_cons_cons.
Qed.

(** A run of non-whitespace characters followed by nothing or by whitespace
    is the first token of [split]. *)
Lemma split_run_app t rest :
  t <> [] -> Forall (fun c => isspace c = false) t -> token_follows rest = false ->
  split (t ++ rest) = t :: split rest.
Proof.
  intros Hne Ht Hrest. induction t as [|c t IH]; [congruence|].
  apply List.Forall_cons_iff in Ht as [Hc Ht].
  change ((c :: t) ++ rest) with (c :: (t ++ rest)).
  rewrite split_cons, Hc. destruct t as [|c' t].
  - simpl. now rewrite Hrest.
  - rewrite IH by (congruence || assumption).
    pose proof (List.Forall_inv Ht) as Hc'.
    simpl. now rewrite Hc'.
Qed.


Lemma tokenized_split s ts : tokenized s ts -> split s = ts.
Proof.
  induction 1 as [| c s ts Hc _ IH | t s ts Hne Ht Hs _ IH].
  - reflexivity.
  - now rewrite split_cons, Hc.
  - rewrite split_run_app by assumption. now f_equal.
Qed.

(** [re.sub(r"\s+", " ", s).strip()] is [" ".join(s.split())]. *)
Lemma strip_sub_spaces s :
  isspace 32 = true -> strip (sub_spaces false s) = join [32] (split s).
Proof.
  intros Hsp. unfold strip. rewrite lstrip_sub_spaces by assumption.
  now apply rstrip_sub_spaces.
Qed.

End Whitespace.

(** * Strings of tokens joined by single spaces *)

Section Tokens.
Context {U : Unicode} {L : UnicodeLaws U}.

Lemma token_not_32 t : token t -> Forall (fun c => c <> 32) t.
Proof.
  intros [_ H]. eapply List.Forall_impl; [|exact H].
  intros c. apply alnum_lower_not_32.
Qed.

Lemma join_tokens_chars ts :
  Forall token ts ->
  Forall (fun c => alnum_lower c = true \/ c = 32) (join [32] ts).
Proof.
  induction ts as [|t ts IH]; intros H; [constructor|].
  apply List.Forall_cons_iff in H as [[_ Ht] Hts]. specialize (IH Hts).
  assert (Ht' : Forall (fun c => alnum_lower c = true \/ c = 32) t)
    by (eapply List.Forall_impl; [|exact Ht]; simpl; tauto).
  destruct ts as [|t' ts]; [exact Ht'|].
  rewrite join_cons by discriminate.
  apply List.Forall_app. split; [assumption|].
  apply List.Forall_app. split; [repeat constructor; tauto | assumption].
Qed.

Lemma join_tokens_head ts : Forall token ts -> head (join [32] ts) <> Some 32.
Proof.
  intros H. destruct ts as [|t ts]; [discriminate|].
  apply List.Forall_inv in H. pose proof (token_not_32 t H) as H32.
  destruct H as [Hne _]. destruct t as [|c t]; [congruence|].
  rewrite join_cons_cons. simpl. apply List.Forall_inv in H32. congruence.
Qed.

Lemma join_tokens_nonempty ts : Forall token ts -> ts <> [] -> join [32] ts <> [].
Proof.
  intros H Hne Hj. apply join_nil in Hj; [congruence|].
  eapply List.Forall_impl; [|exact H]. now intros t [? _].
Qed.

Lemma join_tokens_last ts : Forall token ts -> last (join [32] ts) <> Some 32.
Proof.
  induction ts as [|t ts IH]; intros H; [discriminate|].
  apply List.Forall_cons_iff in H as [Ht Hts]. specialize (IH Hts).
  destruct ts as [|t' ts].
  - simpl. intros Hl. apply last_Some_elem_of, list_elem_of_In in Hl.
    pose proof (token_not_32 t Ht) as H32.
    rewrite List.Forall_forall in H32. now apply (H32 32).
  - rewrite join_cons by discriminate. rewrite !last_app.
    destruct (last (join [32] (t' :: ts))) eqn:El; [assumption|].
    apply last_None in El.
    now apply join_tokens_nonempty in El.
Qed.

Lemma no_double_space_app t r :
  Forall (fun c => c <> 32) t -> no_double_space (t ++ r) = no_double_space r.
Proof.
  induction t as [|c t IH]; intros H; [reflexivity|].
  apply List.Forall_cons_iff in H as [Hc Ht]. specialize (IH Ht).
  simpl. destruct (t ++ r) eqn:E.
  - apply app_eq_nil in E as [_ ->]. reflexivity.
  - rewrite <- IH. apply N.eqb_neq in Hc. now rewrite Hc.
Qed.

Lemma no_double_space_32 r :
  head r <> Some 32 -> no_double_space r = true -> no_double_space (32 :: r) = true.
Proof.
  intros Hh Hr. destruct r as [|b r]; [reflexivity|].
  change (no_double_space (32 :: b :: r))
    with (negb ((32 =? 32) && (b =? 32)) && no_double_space (b :: r)).
  rewrite Hr. destruct (N.eqb_spec b 32) as [->|]; [now elim Hh | reflexivity].
Qed.

Lemma join_tokens_no_double_space ts :
  Forall token ts -> no_double_space (join [32] ts) = true.
Proof.
  induction ts as [|t ts IH]; intros H; [reflexivity|].
  apply List.Forall_cons_iff in H as [Ht Hts]. specialize (IH Hts).
  pose proof (token_not_32 t Ht) as H32.
  destruct ts as [|t' ts].
  - simpl. rewrite <- (app_nil_r t). now rewrite no_double_space_app.
  - rewrite join_cons by discriminate.
    rewrite no_double_space_app by assumption.
    apply no_double_space_32; [now apply join_tokens_head | assumption].
Qed.

(** A token followed by nothing or by whitespace is the first token of [split]. *)
Lemma split_token_app t rest :
  token t -> token_follows rest = false -> split (t ++ rest) = t :: split rest.
Proof.
  intros [Hne Ht] Hrest. apply split_run_app; [assumption| |assumption].
  eapply List.Forall_impl; [|exact Ht]. intros c. apply alnum_lower_not_space.
Qed.

Lemma split_join ts : Forall token ts -> split (join [32] ts) = ts.
Proof.
  induction ts as [|t ts IH]; intros H; [reflexivity|].
  apply List.Forall_cons_iff in H as [Ht Hts]. specialize (IH Hts).
  destruct ts as [|t' ts].
  - simpl. rewrite <- (app_nil_r t) at 1. now rewrite split_token_app.
  - rewrite join_cons by discriminate.
    rewrite split_token_app; [|assumption|simpl; now rewrite space_isspace].
    f_equal. change ([32] ++ join [32] (t' :: ts)) with (32 :: join [32] (t' :: ts)).
    rewrite split_cons, space_isspace. exact IH.
Qed.

(** The last two steps of the routine produce tokens joined by single spaces. *)
Lemma strip_collapse_tokens z :
  exists ts, Forall token ts /\ strip (sub_spaces false (sub_punct z)) = join [32] ts.
Proof.
  exists (split (sub_punct z)). split.
  - eapply List.Forall_impl;
      [|apply (split_tokens (fun c => keep c = true))].
    + intros t [Hne Ht]. split; [assumption|].
      eapply List.Forall_impl; [|exact Ht].
      intros c [Hk Hs]. unfold keep in Hk. rewrite Hs, orb_false_r in Hk. exact Hk.
    + apply List.Forall_forall. intros c Hc.
      unfold sub_punct in Hc. now apply List.filter_In in Hc.
  - apply strip_sub_spaces, space_isspace.
Qed.

Lemma normalize_answer_tokens x :
  exists ts, Forall token ts /\ _normalize_answer x = join [32] ts.
Proof.
  destruct x as [s|].
  - apply strip_collapse_tokens.
  - exists []. split; [constructor | reflexivity].
Qed.

End Tokens.

(** * The number-word pattern on tokens *)

Section NumberWords.
Context {U : Unicode} {L : UnicodeLaws U}.

Lemma token_word_chars t : token t -> word_chars t.
Proof.
  intros [_ H]. eapply List.Forall_impl; [|exact H].
  intros c. apply alnum_lower_word.
Qed.

Lemma starts_with_app w rest : starts_with w (w ++ rest) = true.
Proof. induction w as [|a w IH]; [reflexivity|]. simpl. now rewrite N.eqb_refl. Qed.

Lemma match_token w : forall t rest,
  word_chars w -> word_chars t -> word_at (head rest) = false ->
  starts_with w (t ++ rest) && negb (word_at (head (drop (length w) (t ++ rest))))
  = bool_decide (t = w).
Proof.
  induction w as [|a w IH]; intros t rest Hw Ht Hrest.
  - destruct t as [|c t]; simpl; rewrite ?drop_0.
    + now rewrite Hrest.
    + apply List.Forall_inv in Ht. simpl. now rewrite Ht.
  - apply List.Forall_cons_iff in Hw as [Ha Hw]. destruct t as [|b t].
    + rewrite bool_decide_eq_false_2 by discriminate.
      destruct rest as [|c r]; [reflexivity|]. simpl in Hrest |- *.
      destruct (N.eqb_spec a c) as [->|]; [congruence | reflexivity].
    + apply List.Forall_cons_iff in Ht as [Hb Ht].
      change (starts_with (a :: w) ((b :: t) ++ rest))
        with ((a =? b) && starts_with w (t ++ rest)).
      change (drop (length (a :: w)) ((b :: t) ++ rest))
        with (drop (length w) (t ++ rest)).
      rewrite <- andb_assoc, (IH t rest) by assumption.
      destruct (N.eqb_spec a b) as [->|Hab]; simpl.
      * apply bool_decide_ext. split; congruence.
      * symmetry. apply bool_decide_eq_false_2. congruence.
Qed.

Lemma last_word_chars w : w <> [] -> word_chars w -> word_at (last w) = true.
Proof.
  intros Hne Hw. destruct (last w) as [c|] eqn:El.
  - apply last_Some_elem_of, list_elem_of_In in El.
    unfold word_chars in Hw. rewrite List.Forall_forall in Hw. now apply Hw.
  - now apply last_None in El.
Qed.

(** At the start of a token the pattern matches exactly when the token is
    the word. *)
Lemma matches_at_token w p t rest :
  w <> [] -> word_chars w -> t <> [] -> word_chars t ->
  word_at p = false -> word_at (head rest) = false ->
  matches_at w p (t ++ rest) = bool_decide (t = w).
Proof.
  intros Hwne Hw Htne Ht Hp Hrest. unfold matches_at, boundary.
  rewrite Hp, last_word_chars by assumption.
  destruct t as [|c t]; [congruence|].
  pose proof (List.Forall_inv Ht) as Hc. simpl head. simpl word_at at 1.
  rewrite Hc. simpl xorb. rewrite <- (match_token w (c :: t) rest) by assumption.
  reflexivity.
Qed.

Lemma sub_scan_skip w d u : forall p rest,
  sub_scan w d (length u) p (u ++ rest)
  = sub_scan w d 0 (match last u with Some c => Some c | None => p end) rest.
Proof.
  induction u as [|c u IH]; intros p rest; [reflexivity|].
  simpl sub_scan. rewrite IH, last_cons. now destruct (last u).
Qed.

Lemma sub_scan_nonword w d p rest :
  w <> [] -> word_chars w -> word_at (head rest) = false ->
  sub_scan w d 0 p rest = tail_scan w d rest.
Proof.
  intros Hne Hw Hrest. destruct rest as [|c r]; [reflexivity|].
  simpl. unfold matches_at.
  destruct w as [|a w]; [congruence|]. apply List.Forall_inv in Hw.
  simpl in Hrest. simpl starts_with.
  destruct (N.eqb_spec a c) as [->|]; [congruence|].
  now rewrite andb_false_r.
Qed.

Lemma sub_scan_in_word w d u : forall p rest,
  w <> [] -> word_chars w -> word_chars u ->
  is_word p = true -> word_at (head rest) = false ->
  sub_scan w d 0 (Some p) (u ++ rest) = u ++ tail_scan w d rest.
Proof.
  induction u as [|c u IH]; intros p rest Hne Hw Hu Hp Hrest.
  - now apply sub_scan_nonword.
  - apply List.Forall_cons_iff in Hu as [Hc Hu].
    simpl. unfold matches_at, boundary. simpl. rewrite Hp, Hc. simpl.
    f_equal. now apply IH.
Qed.

Lemma sub_scan_token w d p t rest :
  w <> [] -> word_chars w -> t <> [] -> word_chars t ->
  word_at p = false -> word_at (head rest) = false ->
  sub_scan w d 0 p (t ++ rest) = subst1 w d t ++ tail_scan w d rest.
Proof.
  intros Hwne Hw Htne Ht Hp Hrest.
  pose proof (matches_at_token w p t rest Hwne Hw Htne Ht Hp Hrest) as Hm.
  destruct t as [|c t]; [congruence|]. unfold subst1.
  change (sub_scan w d 0 p ((c :: t) ++ rest)) with
    (if matches_at w p ((c :: t) ++ rest)
     then d ++ sub_scan w d (length w - 1) (Some c) (t ++ rest)
     else c :: sub_scan w d 0 (Some c) (t ++ rest)).
  rewrite Hm. case_bool_decide as Heq.
  - rewrite <- Heq.
    replace (length (c :: t) - 1)%nat with (length t) by (simpl; lia).
    rewrite sub_scan_skip.
    f_equal. now apply sub_scan_nonword.
  - apply List.Forall_cons_iff in Ht as [Hc Ht].
    simpl. f_equal. now apply sub_scan_in_word.
Qed.

(** On tokens joined by single spaces, one substitution acts token by token. *)
Lemma sub_scan_join w d ts : forall p,
  token w -> Forall token ts -> word_at p = false ->
  sub_scan w d 0 p (join [32] ts) = join [32] (map (subst1 w d) ts).
Proof.
  induction ts as [|t ts IH]; intros p Hw Hts Hp; [reflexivity|].
  apply List.Forall_cons_iff in Hts as [Ht Hts].
  pose proof (token_word_chars w Hw) as Hwc. pose proof Hw as [Hwne _].
  pose proof (token_word_chars t Ht) as Htc. destruct Ht as [Htne _].
  destruct ts as [|t' ts].
  - simpl. rewrite <- (app_nil_r t) at 1.
    rewrite sub_scan_token by (assumption || reflexivity).
    apply app_nil_r.
  - rewrite join_cons by discriminate.
    change (map (subst1 w d) (t :: t' :: ts))
      with (subst1 w d t :: map (subst1 w d) (t' :: ts)).
    rewrite (join_cons [32] (subst1 w d t)) by (simpl; discriminate).
    rewrite sub_scan_token;
      [|assumption..|simpl; apply space_not_word].
    f_equal. simpl tail_scan. simpl app. f_equal.
    apply IH; [assumption | assumption | simpl; apply space_not_word].
Qed.

Lemma subst1_token w d t : token d -> token t -> token (subst1 w d t).
Proof. intros Hd Ht. unfold subst1. now case_bool_decide. Qed.

Lemma sub_words_join (tbl : list (str * str)) : forall ts,
  Forall (fun wd => token (fst wd) /\ token (snd wd)) tbl ->
  Forall token ts ->
  fold_left (fun s wd => sub_word (fst wd) (snd wd) s) tbl (join [32] ts)
  = join [32] (map (fold_left (fun t wd => subst1 (fst wd) (snd wd) t) tbl) ts).
Proof.
  induction tbl as [|[w d] tbl IH]; intros ts Htbl Hts.
  - simpl. now rewrite map_id.
  - apply List.Forall_cons_iff in Htbl as [[Hw Hd] Htbl]. simpl in Hw, Hd.
    simpl fold_left. unfold sub_word at 2.
    rewrite sub_scan_join by (assumption || reflexivity).
    rewrite IH; [now rewrite map_map | assumption |].
    apply List.Forall_forall. intros t Hin. apply List.in_map_iff in Hin as (t0 & <- & Hin).
    apply subst1_token; [assumption|].
    rewrite List.Forall_forall in Hts. now apply Hts.
Qed.

Lemma NUMBER_WORDS_tokens :
  Forall (fun wd => token (fst wd) /\ token (snd wd)) NUMBER_WORDS.
Proof.
  unfold NUMBER_WORDS, token.
  repeat (constructor; [split; (split; [discriminate | repeat constructor]) |]).
  constructor.
Qed.

Lemma number_word_token t : token t -> token (number_word t).
Proof.
  unfold number_word. generalize NUMBER_WORDS_tokens. generalize NUMBER_WORDS.
  intros tbl. revert t. induction tbl as [|[w d] tbl IH]; intros t Htbl Ht; [exact Ht|].
  apply List.Forall_cons_iff in Htbl as [[_ Hd] Htbl]. simpl.
  apply IH; [assumption|]. now apply subst1_token.
Qed.

Lemma sub_number_words_join ts :
  Forall token ts ->
  sub_number_words (join [32] ts) = join [32] (map number_word ts).
Proof. intros H. apply sub_words_join; [apply NUMBER_WORDS_tokens | exact H]. Qed.

End NumberWords.

(** * The routine on its own output *)

Lemma filter_nil {A} (f : A -> bool) (l : list A) :
  List.filter f l = [] <-> forall x, In x l -> f x = false.
Proof.
  split.
  - intros H x Hx. destruct (f x) eqn:E; [|reflexivity].
    assert (Hin : In x (List.filter f l)) by (apply List.filter_In; now split).
    rewrite H in Hin. destruct Hin.
  - intros H. induction l as [|a l IH]; [reflexivity|].
    simpl. rewrite (H a) by now left. apply IH. intros x Hx. apply H. now right.
Qed.

Lemma filter_all {A} (f : A -> bool) (l : list A) :
  Forall (fun x => f x = true) l -> List.filter f l = l.
Proof.
  induction l as [|a l IH]; intros H; [reflexivity|].
  apply List.Forall_cons_iff in H as [Ha Hl]. simpl. rewrite Ha. f_equal. now apply IH.
Qed.

Section Idempotence.
Context {U : Unicode} {L : UnicodeLaws U}.

Lemma join_tokens_ascii ts : Forall token ts -> forallb is_ascii (join [32] ts) = true.
Proof.
  intros H. apply forallb_forall. intros c Hc.
  pose proof (join_tokens_chars ts H) as Hall.
  rewrite List.Forall_forall in Hall. destruct (Hall c Hc) as [Ha | ->].
  - now apply alnum_lower_ascii.
  - reflexivity.
Qed.

(** On tokens joined by single spaces the routine only replaces the tokens
    that are number words. *)
Lemma normalize_join ts :
  Forall token ts ->
  _normalize_answer (Some (join [32] ts)) = join [32] (map number_word ts).
Proof.
  intros H. unfold _normalize_answer.
  pose proof (join_tokens_ascii ts H) as Hasc.
  pose proof (join_tokens_chars ts H) as Hchars.
  rewrite nfkd_ascii by assumption.
  rewrite filter_all.
  2:{ rewrite forallb_forall in Hasc. apply List.Forall_forall. intros c Hc.
      rewrite combining_ascii by now apply Hasc. reflexivity. }
  rewrite lower_ascii by assumption.
  replace (map ascii_lower (join [32] ts)) with (join [32] ts).
  2:{ symmetry. rewrite <- (map_id (join [32] ts)) at 2.
      apply map_ext_in. intros c Hc. rewrite List.Forall_forall in Hchars.
      destruct (Hchars c Hc) as [Ha | ->]; [now apply alnum_lower_lower | reflexivity]. }
  rewrite sub_number_words_join by assumption.
  assert (H' : Forall token (map number_word ts)).
  { apply List.Forall_forall. intros t Ht. apply List.in_map_iff in Ht as (t0 & <- & Ht).
    apply number_word_token. rewrite List.Forall_forall in H. now apply H. }
  unfold sub_punct. rewrite filter_all.
  2:{ eapply List.Forall_impl; [|apply join_tokens_chars; exact H'].
      intros c [Ha | ->]; [now apply alnum_lower_keep|].
      unfold keep. rewrite space_isspace. apply orb_true_r. }
  rewrite strip_sub_spaces by apply space_isspace.
  now rewrite split_join.
Qed.

Lemma number_word_other t : is_number_word t = false -> number_word t = t.
Proof.
  unfold is_number_word, number_word. generalize NUMBER_WORDS. intros tbl.
  induction tbl as [|[w d] tbl IH]; intros H; [reflexivity|].
  simpl in H. apply orb_false_iff in H as [Hw Htbl].
  simpl. unfold subst1 at 2. rewrite Hw. now apply IH.
Qed.

Lemma number_word_changes t : is_number_word t = true -> number_word t <> t.
Proof.
  intros H. apply existsb_exists in H as (wd & Hin & Ht).
  apply bool_decide_eq_true in Ht. subst t.
  assert (Hall : forallb (fun wd => negb (bool_decide (number_word (fst wd) = fst wd)))
                   NUMBER_WORDS = true) by (vm_compute; reflexivity).
  rewrite forallb_forall in Hall. specialize (Hall wd Hin).
  apply negb_true_iff, bool_decide_eq_false in Hall. exact Hall.
Qed.

Lemma map_number_word_fixed ts :
  map number_word ts = ts <-> existsb is_number_word ts = false.
Proof.
  induction ts as [|t ts IH]; [split; reflexivity|]. cbn [map existsb]. split.
  - intros H. apply cons_inj in H as [Ht Hts].
    apply orb_false_iff. split; [|apply IH; exact Hts].
    destruct (is_number_word t) eqn:E; [|reflexivity].
    apply number_word_changes in E. contradiction.
  - intros H. apply orb_false_iff in H as [Ht Hts].
    f_equal; [apply number_word_other; exact Ht | apply IH; exact Hts].
Qed.

End Idempotence.

(** * Two lawful instances agree on ASCII text *)

Section Agreement.
Context (U1 U2 : Unicode) (L1 : UnicodeLaws U1) (L2 : UnicodeLaws U2).

Lemma is_word_agree c : is_ascii c = true -> @is_word U1 c = @is_word U2 c.
Proof. intros H. unfold is_word. now rewrite !isalnum_ascii. Qed.

Lemma isspace_agree c : is_ascii c = true -> @isspace U1 c = @isspace U2 c.
Proof. intros H. now rewrite !isspace_ascii. Qed.

Lemma word_at_agree o : asc_opt o -> @word_at U1 o = @word_at U2 o.
Proof. intros H. destruct o as [c|]; [|reflexivity]. simpl. now apply is_word_agree, H. Qed.

Lemma asc_head s : asc s -> asc_opt (head s).
Proof. intros H c E. destruct s; [discriminate|]. injection E as <-. now apply List.Forall_inv in H. Qed.

Lemma asc_last s : asc s -> asc_opt (last s).
Proof.
  intros H c E. apply last_Some_elem_of, list_elem_of_In in E.
  unfold asc in H. rewrite List.Forall_forall in H. now apply H.
Qed.

Lemma matches_at_agree w p s :
  asc w -> asc_opt p -> asc s -> @matches_at U1 w p s = @matches_at U2 w p s.
Proof.
  intros Hw Hp Hs. unfold matches_at, boundary.
  rewrite (word_at_agree p), (word_at_agree (head s)), (word_at_agree (last w)),
    (word_at_agree (head (drop (length w) s))); try reflexivity.
  - apply asc_head. now apply Forall_drop.
  - now apply asc_last.
  - now apply asc_head.
  - assumption.
Qed.

Lemma sub_scan_agree w d s : forall k p,
  asc w -> asc_opt p -> asc s ->
  @sub_scan U1 w d k p s = @sub_scan U2 w d k p s.
Proof.
  induction s as [|c s IH]; intros k p Hw Hp Hs; [reflexivity|].
  pose proof Hs as Hcs. apply List.Forall_cons_iff in Hs as [Hc Hs].
  assert (Hc' : asc_opt (Some c)) by (intros ? [= <-]; assumption).
  simpl. destruct k as [|k]; [|now apply IH].
  rewrite (matches_at_agree w p (c :: s)) by assumption.
  now rewrite !IH.
Qed.

Lemma sub_scan_asc (U : Unicode) w d s : forall k p,
  asc d -> asc s -> asc (@sub_scan U w d k p s).
Proof.
  induction s as [|c s IH]; intros k p Hd Hs; [constructor|].
  apply List.Forall_cons_iff in Hs as [Hc Hs]. simpl.
  destruct k as [|k]; [|now apply IH].
  destruct (matches_at w p (c :: s)).
  - apply List.Forall_app. split; [assumption | now apply IH].
  - constructor; [assumption | now apply IH].
Qed.

Lemma sub_words_agree (tbl : list (str * str)) : forall s,
  Forall (fun wd => asc (fst wd) /\ asc (snd wd)) tbl -> asc s ->
  fold_left (fun s wd => @sub_word U1 (fst wd) (snd wd) s) tbl s
  = fold_left (fun s wd => @sub_word U2 (fst wd) (snd wd) s) tbl s
  /\ asc (fold_left (fun s wd => @sub_word U2 (fst wd) (snd wd) s) tbl s).
Proof.
  induction tbl as [|[w d] tbl IH]; intros s Htbl Hs; [now split|].
  apply List.Forall_cons_iff in Htbl as [[Hw Hd] Htbl]. simpl in Hw, Hd |- *.
  unfold sub_word at 2 4 5. rewrite (sub_scan_agree w d s) by (assumption || easy).
  apply IH; [assumption|]. now apply sub_scan_asc.
Qed.

Lemma keep_agree c : is_ascii c = true -> @keep U1 c = @keep U2 c.
Proof. intros H. unfold keep. now rewrite (isspace_agree c). Qed.

Lemma sub_punct_agree s : asc s -> @sub_punct U1 s = @sub_punct U2 s /\ asc (@sub_punct U2 s).
Proof.
  intros H. unfold sub_punct. split.
  - apply filter_ext_in. intros c Hc. unfold asc in H.
    rewrite List.Forall_forall in H. now apply keep_agree, H.
  - apply List.Forall_forall. intros c Hc. apply List.filter_In in Hc as [Hc _].
    unfold asc in H. rewrite List.Forall_forall in H. now apply H.
Qed.

Lemma sub_spaces_agree s : forall b,
  asc s -> @sub_spaces U1 b s = @sub_spaces U2 b s /\ asc (@sub_spaces U2 b s).
Proof.
  induction s as [|c s IH]; intros b H; [split; [reflexivity | constructor]|].
  apply List.Forall_cons_iff in H as [Hc Hs]. simpl.
  rewrite (isspace_agree c Hc).
  destruct (@isspace U2 c), b; try (now apply IH);
    (destruct (IH true Hs) as [-> ?] || destruct (IH false Hs) as [-> ?]);
    (split; [reflexivity | now constructor]).
Qed.

Lemma lstrip_agree s : asc s -> @lstrip U1 s = @lstrip U2 s /\ asc (@lstrip U2 s).
Proof.
  induction s as [|c s IH]; intros H; [split; [reflexivity | constructor]|].
  pose proof H as Hcs. apply List.Forall_cons_iff in H as [Hc Hs]. simpl.
  rewrite (isspace_agree c Hc). destruct (@isspace U2 c); [now apply IH | now split].
Qed.

Lemma rstrip_agree s : asc s -> @rstrip U1 s = @rstrip U2 s.
Proof.
  induction s as [|c s IH]; intros H; [reflexivity|].
  apply List.Forall_cons_iff in H as [Hc Hs]. simpl.
  now rewrite (IH Hs), (isspace_agree c Hc).
Qed.

Lemma NUMBER_WORDS_asc : Forall (fun wd => asc (fst wd) /\ asc (snd wd)) NUMBER_WORDS.
Proof.
  unfold NUMBER_WORDS, asc.
  repeat (constructor; [split; repeat constructor |]). constructor.
Qed.

Lemma normalize_answer_agree x :
  forallb is_ascii x = true ->
  @_normalize_answer U1 (Some x) = @_normalize_answer U2 (Some x).
Proof.
  intros H. assert (Hx : asc x).
  { apply List.Forall_forall. now apply forallb_forall. }
  unfold _normalize_answer. rewrite !nfkd_ascii by assumption.
  rewrite !filter_all
    by (eapply List.Forall_impl; [|exact Hx]; intros c Hc;
        now rewrite combining_ascii).
  rewrite !lower_ascii by assumption.
  assert (Hl : asc (map ascii_lower x)).
  { apply List.Forall_forall. intros c Hc. apply List.in_map_iff in Hc as (c0 & <- & Hc).
    unfold asc in Hx. rewrite List.Forall_forall in Hx. specialize (Hx c0 Hc). chars. }
  unfold sub_number_words.
  destruct (sub_words_agree NUMBER_WORDS _ NUMBER_WORDS_asc Hl) as [-> Hn].
  destruct (sub_punct_agree _ Hn) as [-> Hp].
  destruct (sub_spaces_agree _ false Hp) as [-> Hs].
  unfold strip. destruct (lstrip_agree _ Hs) as [-> Hls].
  now apply rstrip_agree.
Qed.

End Agreement.

(** * Properties of [_normalize_answer] *)

Example normalize_examples :
  map (fun x => @_normalize_answer ascii_unicode (Some (lit x)))
    ["  Seven  "; "Twelve-Year"; "PARIS!"; "  paris "; "par is"; "one_two"]%string
  = map lit ["7"; "12year"; "paris"; "paris"; "par is"; "onetwo"]%string.
Proof. vm_compute. reflexivity. Qed.

(** C10: for every input, [None] included, the output of
    [_normalize_answer] holds only ASCII digits, ASCII lowercase letters and
    spaces, never two spaces in a row, and no space at either end. *)
Theorem normalize_answer_shape {U : Unicode} (L : UnicodeLaws U) (x : option str) :
  Forall (fun c => is_digit c = true \/ is_az c = true \/ c = 32) (_normalize_answer x)
  /\ no_double_space (_normalize_answer x) = true
  /\ head (_normalize_answer x) <> Some 32
  /\ last (_normalize_answer x) <> Some 32.
Proof.
  destruct (normalize_answer_tokens x) as (ts & Hts & ->).
  split; [|split; [|split]].
  - eapply List.Forall_impl; [|apply join_tokens_chars; exact Hts].
    intros c [Hc | Hc]; [|tauto].
    unfold alnum_lower in Hc. apply orb_true_iff in Hc. tauto.
  - now apply join_tokens_no_double_space.
  - now apply join_tokens_head.
  - now apply join_tokens_last.
Qed.

Lemma normalize_answer_shape_witness :
  let y := @_normalize_answer ascii_unicode (Some (lit "  Seven   Ducks! ")) in
  Forall (fun c => is_digit c = true \/ is_az c = true \/ c = 32) y
  /\ no_double_space y = true /\ head y <> Some 32 /\ last y <> Some 32.
Proof.
  exact (normalize_answer_shape ascii_unicode_laws (Some (lit "  Seven   Ducks! "))).
Defined.

(** C4, as the code has it: a second pass changes nothing exactly when the
    first pass left no token that is one of the thirteen number words.
    (Removing punctuation can put such a word together only after the
    substitution step has run.) *)
Theorem normalize_answer_idempotent_iff {U : Unicode} (L : UnicodeLaws U) (x : option str) :
  _normalize_answer (Some (_normalize_answer x)) = _normalize_answer x
  <-> has_number_word (_normalize_answer x) = false.
Proof.
  destruct (normalize_answer_tokens x) as (ts & Hts & ->).
  rewrite normalize_join by assumption.
  unfold has_number_word. rewrite split_join by assumption.
  rewrite <- map_number_word_fixed. split.
  - intros H. apply (f_equal split) in H. rewrite !split_join in H; [exact H | assumption |].
    apply List.Forall_forall. intros t Ht. apply List.in_map_iff in Ht as (t0 & <- & Ht).
    apply number_word_token. rewrite List.Forall_forall in Hts. now apply Hts.
  - intros H. now rewrite H.
Qed.

Lemma normalize_answer_idempotent_witness :
  @_normalize_answer ascii_unicode
    (Some (@_normalize_answer ascii_unicode (Some (lit "PARIS, Texas!"))))
  = @_normalize_answer ascii_unicode (Some (lit "PARIS, Texas!")).
Proof.
  apply (normalize_answer_idempotent_iff ascii_unicode_laws (Some (lit "PARIS, Texas!"))).
  vm_compute. reflexivity.
Defined.

(** C4 as stated fails: ["se-ven"] normalises to ["seven"], and that to ["7"]. *)
Lemma normalize_answer_not_idempotent :
  @_normalize_answer ascii_unicode (Some (lit "se-ven")) = lit "seven"
  /\ @_normalize_answer ascii_unicode (Some (lit "seven")) = lit "7"
  /\ @_normalize_answer ascii_unicode
       (Some (@_normalize_answer ascii_unicode (Some (lit "se-ven"))))
     <> @_normalize_answer ascii_unicode (Some (lit "se-ven")).
Proof. compute_each. Qed.

(** C5, as the code has it: the hyphen is a word boundary, so ["seven"] is
    replaced, and removing the hyphen leaves no space: ["seven-teen"]
    becomes ["7teen"], which is not ["17"]. *)
Theorem normalize_seven_teen {U : Unicode} (L : UnicodeLaws U) :
  _normalize_answer (Some (lit "seven-teen")) = lit "7teen"
  /\ _normalize_answer (Some (lit "seven-teen")) <> lit "17".
Proof.
  rewrite (normalize_answer_agree U ascii_unicode L ascii_unicode_laws) by reflexivity.
  vm_compute. split; [reflexivity | discriminate].
Qed.

Lemma normalize_seven_teen_witness :
  @_normalize_answer ascii_unicode (Some (lit "seven-teen")) = lit "7teen"
  /\ @_normalize_answer ascii_unicode (Some (lit "seven-teen")) <> lit "17".
Proof. exact (normalize_seven_teen ascii_unicode_laws). Defined.

(** C5 as stated fails: the result is not ["seven teen"]. *)
Lemma normalize_seven_teen_not_two_tokens :
  @_normalize_answer ascii_unicode (Some (lit "seven-teen")) <> lit "seven teen".
Proof. vm_compute. discriminate. Qed.

(** * Trimming *)

Section Strip.
Context {U : Unicode}.

Lemma lstrip_idem s : lstrip (lstrip s) = lstrip s.
Proof.
  induction s as [|c s IH]; [reflexivity|]. simpl.
  destruct (isspace c) eqn:Ec; [exact IH|]. simpl. now rewrite Ec.
Qed.

Lemma rstrip_idem s : rstrip (rstrip s) = rstrip s.
Proof.
  induction s as [|c s IH]; [reflexivity|]. rewrite rstrip_cons.
  destruct (rstrip s) as [|d r] eqn:Er.
  - destruct (isspace c) eqn:Ec; [reflexivity|]. simpl. now rewrite Ec.
  - rewrite rstrip_cons, IH. reflexivity.
Qed.

Lemma lstrip_rstrip s : lstrip (rstrip s) = rstrip (lstrip s).
Proof.
  induction s as [|c s IH]; [reflexivity|]. rewrite rstrip_cons.
  cbn [lstrip]. destruct (rstrip s) as [|d r] eqn:Er.
  - destruct (isspace c) eqn:Ec.
    + now rewrite <- IH.
    + rewrite rstrip_cons, Er, Ec. simpl. now rewrite Ec.
  - cbn [lstrip]. destruct (isspace c) eqn:Ec.
    + exact IH.
    + now rewrite rstrip_cons, Er.
Qed.

Lemma strip_idem s : strip (strip s) = strip s.
Proof.
  unfold strip. now rewrite lstrip_rstrip, lstrip_idem, rstrip_idem.
Qed.

Lemma lstrip_nil s : lstrip s = [] <-> forallb isspace s = true.
Proof.
  induction s as [|c s IH]; [easy|]. simpl.
  destruct (isspace c); [exact IH | easy].
Qed.

Lemma rstrip_nil s : rstrip s = [] <-> forallb isspace s = true.
Proof.
  induction s as [|c s IH]; [easy|]. rewrite rstrip_cons. simpl.
  destruct (rstrip s) as [|d r].
  - destruct (isspace c); simpl; [|easy].
    split; [intros _; now apply IH | reflexivity].
  - destruct (forallb isspace s); [destruct IH as [_ IH]; now specialize (IH eq_refl)|].
    rewrite andb_false_r. easy.
Qed.

Lemma lstrip_head s : forallb isspace (lstrip s) = true -> lstrip s = [].
Proof.
  induction s as [|c s IH]; [reflexivity|]. simpl.
  destruct (isspace c) eqn:Ec; [exact IH|]. simpl. now rewrite Ec.
Qed.

Lemma strip_nil s : strip s = [] <-> forallb isspace s = true.
Proof.
  unfold strip. rewrite rstrip_nil, <- (lstrip_nil s). split.
  - apply lstrip_head.
  - now intros ->.
Qed.

Lemma lstrip_delim c a b : isspace c = false -> lstrip (a ++ c :: b) = lstrip a ++ c :: b.
Proof.
  intros Hc. induction a as [|d a IH]; simpl.
  - now rewrite Hc.
  - destruct (isspace d); [exact IH | reflexivity].
Qed.

Lemma rstrip_delim c a b : isspace c = false -> rstrip (a ++ c :: b) = a ++ c :: rstrip b.
Proof.
  intros Hc. induction a as [|d a IH].
  - simpl app. now apply rstrip_cons_keep.
  - change ((d :: a) ++ c :: b) with (d :: (a ++ c :: b)).
    rewrite rstrip_cons, IH. now destruct a.
Qed.

Lemma contains_lstrip c s : contains c s = false -> contains c (lstrip s) = false.
Proof.
  induction s as [|d s IH]; [reflexivity|]. intros H. simpl.
  destruct (isspace d); [|exact H].
  apply IH. simpl in H. now apply orb_false_iff in H.
Qed.

Lemma contains_rstrip c s : contains c s = false -> contains c (rstrip s) = false.
Proof.
  induction s as [|d s IH]; [reflexivity|]. intros H. rewrite rstrip_cons.
  simpl in H. apply orb_false_iff in H as [Hd Hs]. specialize (IH Hs).
  destruct (rstrip s) as [|e r].
  - destruct (isspace d); [reflexivity|]. simpl. now rewrite Hd.
  - change (contains c (d :: e :: r)) with ((c =? d) || contains c (e :: r)).
    now rewrite Hd, IH.
Qed.

Lemma split1_app c a b : contains c a = false -> split1 c (a ++ c :: b) = (a, b).
Proof.
  induction a as [|d a IH]; intros H; simpl.
  - now rewrite N.eqb_refl.
  - simpl in H. apply orb_false_iff in H as [Hd Ha].
    rewrite N.eqb_sym, Hd, IH by assumption. reflexivity.
Qed.

Lemma contains_split1 c s :
  contains c s = true ->
  s = fst (split1 c s) ++ c :: snd (split1 c s) /\ contains c (fst (split1 c s)) = false.
Proof.
  induction s as [|d s IH]; [discriminate|]. intros H. simpl.
  destruct (N.eqb_spec d c) as [->|Hne]; [now split|].
  simpl in H. destruct (N.eqb_spec c d) as [->|_]; [congruence|]. simpl in H.
  destruct (IH H) as [Hs Hc]. destruct (split1 c s) as [a b]. simpl in *. split.
  - now f_equal.
  - destruct (N.eqb_spec c d) as [->|_]; [congruence | exact Hc].
Qed.

(** Trimming the line before it is split changes nothing. *)
Lemma parse_line_split_then_trim raw :
  isspace 124 = false -> parse_line raw = split_then_trim raw.
Proof.
  intros Hbar. unfold parse_line, split_then_trim.
  destruct (forallb isspace raw) eqn:Eb.
  { apply strip_nil in Eb. now rewrite Eb. }
  assert (Hne : nonempty (strip raw) = true).
  { destruct (strip raw) eqn:Es; [|reflexivity].
    apply strip_nil in Es. congruence. }
  rewrite Hne. cbn [negb]. destruct (contains 124 raw) eqn:Ec.
  - destruct (contains_split1 124 raw Ec) as [Hraw Ha].
    destruct (split1 124 raw) as [a b]. cbn [fst snd] in *.
    assert (Hs : strip raw = lstrip a ++ 124 :: rstrip b).
    { unfold strip. rewrite Hraw at 1.
      rewrite lstrip_delim, rstrip_delim by assumption. reflexivity. }
    rewrite Hs.
    assert (Hc : contains 124 (lstrip a ++ 124 :: rstrip b) = true).
    { unfold contains. rewrite existsb_app. simpl. apply orb_true_r. }
    rewrite Hc, split1_app by now apply contains_lstrip. cbn [negb fst snd].
    assert (Hq : strip (lstrip a) = strip a) by (unfold strip; now rewrite lstrip_idem).
    assert (Hb : strip (rstrip b) = strip b)
      by (unfold strip; now rewrite lstrip_rstrip, rstrip_idem).
    rewrite Hq, Hb. now destruct (nonempty (strip a)), (nonempty (strip b)).
  - assert (Hc : contains 124 (strip raw) = false)
      by (unfold strip; now apply contains_rstrip, contains_lstrip).
    now rewrite Hc.
Qed.

(** Trimming, told without the two scans. *)

Lemma all_space_forallb s :
  Forall (fun c => isspace c = true) s -> forallb isspace s = true.
Proof. induction 1 as [|c s Hc _ IH]; [reflexivity|]. simpl. now rewrite Hc. Qed.

Lemma lstrip_parts s :
  exists l, s = l ++ lstrip s /\ Forall (fun c => isspace c = true) l
            /\ (forall c, head (lstrip s) = Some c -> isspace c = false).
Proof.
  induction s as [|c s (l & Hs & Hl & Hh)].
  - exists []. split; [reflexivity|]. split; [constructor | discriminate].
  - cbn [lstrip]. destruct (isspace c) eqn:Ec.
    + exists (c :: l). split; [cbn; now f_equal|]. split; [now constructor | exact Hh].
    + exists []. split; [reflexivity|]. split; [constructor|].
      intros d [= <-]. exact Ec.
Qed.

Lemma rstrip_parts s :
  exists r, s = rstrip s ++ r /\ Forall (fun c => isspace c = true) r
            /\ (forall c, last (rstrip s) = Some c -> isspace c = false).
Proof.
  induction s as [|c s (r & Hs & Hr & Hl)].
  - exists []. split; [reflexivity|]. split; [constructor | discriminate].
  - rewrite rstrip_cons. destruct (rstrip s) as [|d t] eqn:Er.
    + cbn [app] in Hs. subst r. destruct (isspace c) eqn:Ec.
      * exists (c :: s). split; [reflexivity|]. split; [now constructor | discriminate].
      * exists s. split; [reflexivity|]. split; [exact Hr|].
        intros x [= <-]. exact Ec.
    + exists r. split; [cbn [app] in *; now f_equal|]. split; [exact Hr|].
      intros x Hx. apply Hl. now rewrite last_cons_cons in Hx.
Qed.

Lemma rstrip_head s c : head (rstrip s) = Some c -> head s = Some c.
Proof.
  destruct s as [|d s]; [discriminate|]. rewrite rstrip_cons.
  destruct (rstrip s); [destruct (isspace d); [discriminate|]|]; now intros [= <-].
Qed.

Lemma strip_trimmed s : trimmed s (strip s).
Proof.
  unfold trimmed, strip.
  destruct (lstrip_parts s) as (l & Hs & Hl & Hh).
  destruct (rstrip_parts (lstrip s)) as (r & Hr & Hsp & Hlast).
  exists l, r. split; [now rewrite <- Hr|]. split; [exact Hl|]. split; [exact Hsp|].
  split; [|exact Hlast]. intros c Hc. apply Hh. now apply rstrip_head.
Qed.

Lemma lstrip_spaces l s : Forall (fun c => isspace c = true) l -> lstrip (l ++ s) = lstrip s.
Proof. induction 1 as [|c l Hc _ IH]; [reflexivity|]. cbn. now rewrite Hc. Qed.

Lemma lstrip_id s : (forall c, head s = Some c -> isspace c = false) -> lstrip s = s.
Proof. destruct s as [|c s]; [reflexivity|]. intros H. cbn. now rewrite (H c eq_refl). Qed.

Lemma rstrip_spaces s r : Forall (fun c => isspace c = true) r -> rstrip (s ++ r) = rstrip s.
Proof.
  intros Hr. induction s as [|c s IH].
  - apply rstrip_nil. now apply all_space_forallb.
  - change ((c :: s) ++ r) with (c :: (s ++ r)). now rewrite !rstrip_cons, IH.
Qed.

Lemma rstrip_id s : (forall c, last s = Some c -> isspace c = false) -> rstrip s = s.
Proof.
  induction s as [|c s IH]; [reflexivity|]. intros H. rewrite rstrip_cons.
  destruct s as [|d t].
  - cbn. now rewrite (H c eq_refl).
  - rewrite IH; [reflexivity|]. intros x Hx. apply H. now rewrite last_cons_cons.
Qed.

(** The trimmed text is unique: it is what [strip] returns. *)
Lemma trimmed_strip s t : trimmed s t -> t = strip s.
Proof.
  intros (l & r & -> & Hl & Hr & Hh & Hlast). unfold strip.
  rewrite lstrip_spaces by assumption. destruct t as [|c t].
  - cbn [app]. rewrite (proj2 (lstrip_nil r)) by now apply all_space_forallb.
    reflexivity.
  - rewrite lstrip_id by (cbn; exact Hh).
    rewrite rstrip_spaces by assumption. symmetry. now apply rstrip_id.
Qed.

Lemma contains_In c s : contains c s = false <-> ~ In c s.
Proof.
  unfold contains. split.
  - intros H Hin. assert (existsb (N.eqb c) s = true); [|congruence].
    apply existsb_exists. exists c. split; [exact Hin | apply N.eqb_refl].
  - intros H. destruct (existsb (N.eqb c) s) eqn:E; [|reflexivity].
    apply existsb_exists in E as (d & Hd & Ed). apply N.eqb_eq in Ed. now subst d.
Qed.

(** The loop body keeps a line exactly when the contract accepts it, and
    then with the record of the contract. *)
Lemma parse_line_accepted raw rec :
  isspace 124 = false -> parse_line raw = Some rec <-> accepted raw rec.
Proof.
  intros Hbar. rewrite parse_line_split_then_trim by assumption.
  unfold split_then_trim, accepted. split.
  - destruct (forallb isspace raw); [discriminate|].
    destruct (contains 124 raw) eqn:Ec; [|discriminate]. cbn [negb].
    destruct (contains_split1 124 raw Ec) as [Hraw Ha].
    destruct (split1 124 raw) as [a b]. cbn [fst snd] in *.
    pose proof (strip_trimmed a) as Hta. pose proof (strip_trimmed b) as Htb.
    destruct (strip a) as [|qc q]; [discriminate|].
    destruct (strip b) as [|ac ans]; [discriminate|]. cbn [nonempty negb orb].
    intros [= <-]. cbn [q_question q_answer q_id]. exists a, b.
    split; [exact Hraw|]. split; [now apply contains_In|].
    repeat split; try assumption; discriminate.
  - intros (a & b & -> & Hna & Hq & Ha & Hqn & Han & Hid).
    apply trimmed_strip in Hq, Ha. apply contains_In in Hna.
    assert (Hsp : forallb isspace (a ++ 124 :: b) = false).
    { rewrite forallb_app. cbn [forallb]. rewrite Hbar. apply andb_false_r. }
    assert (Hc : contains 124 (a ++ 124 :: b) = true).
    { unfold contains. rewrite existsb_app. cbn [existsb]. rewrite N.eqb_refl.
      apply orb_true_r. }
    rewrite Hsp, Hc, split1_app by assumption. cbn [negb fst snd].
    rewrite <- Hq, <- Ha. destruct rec as [i q ans]. cbn [q_id q_question q_answer] in *.
    destruct q; [congruence|]. destruct ans; [congruence|]. cbn [nonempty negb orb].
    now rewrite Hid.
Qed.

End Strip.

(** * The store: loading and reloading *)

Section Store.
Context {U : Unicode}.

Lemma parse_lines_from lines : forall acc,
  fold_left
    (fun parsed raw =>
       match parse_line raw with Some rec => parsed ++ [rec] | None => parsed end)
    lines acc
  = acc ++ omap parse_line lines.
Proof.
  induction lines as [|raw lines IH]; intros acc; simpl.
  - now rewrite app_nil_r.
  - rewrite IH. destruct (parse_line raw); [|reflexivity].
    now rewrite <- app_assoc.
Qed.

(** The loop keeps, in order, the records of the lines that parse. *)
Lemma parse_lines_omap lines : parse_lines lines = omap parse_line lines.
Proof. apply parse_lines_from. Qed.

(** The records of the loop are those of the contract for the file, and
    the contract allows no others. *)
Lemma parse_lines_kept lines recs :
  isspace 124 = false -> kept lines recs <-> recs = parse_lines lines.
Proof.
  intros Hbar. rewrite parse_lines_omap. split.
  - induction 1 as [|raw rec lines recs Ha _ IH|raw lines recs Hn _ IH].
    + reflexivity.
    + apply parse_line_accepted in Ha; [|assumption]. cbn. now rewrite Ha, IH.
    + cbn. destruct (parse_line raw) as [rec|] eqn:E; [|exact IH].
      apply parse_line_accepted in E; [|assumption]. now destruct (Hn rec).
  - intros ->. induction lines as [|raw lines IH]; [constructor|]. cbn.
    destruct (parse_line raw) as [rec|] eqn:E.
    + constructor; [now apply parse_line_accepted | exact IH].
    + constructor; [|exact IH]. intros rec Ha.
      apply parse_line_accepted in Ha; [|assumption]. congruence.
Qed.

(** No record results exactly when the contract accepts no line. *)
Lemma parse_lines_nil lines :
  isspace 124 = false ->
  parse_lines lines = [] <-> forall raw rec, In raw lines -> ~ accepted raw rec.
Proof.
  intros Hbar. rewrite parse_lines_omap. split.
  - intros H raw rec Hin Ha. apply parse_line_accepted in Ha; [|assumption].
    assert (Hrec : rec ∈ omap parse_line lines).
    { apply list_elem_of_omap. exists raw. split; [now apply list_elem_of_In | exact Ha]. }
    rewrite H in Hrec. now apply not_elem_of_nil in Hrec.
  - intros H. induction lines as [|raw lines IH]; [reflexivity|]. cbn.
    destruct (parse_line raw) as [rec|] eqn:E.
    + apply parse_line_accepted in E; [|assumption].
      destruct (H raw rec); [now left | exact E].
    + apply IH. intros raw' rec' Hin. apply H. now right.
Qed.

Lemma build_id_map_from parsed i : forall m : gmap str entry,
  fold_left (fun m rec => <[q_id rec := rec]> m) parsed m !! i
  = match last (List.filter (fun r => bool_decide (q_id r = i)) parsed) with
    | Some r => Some r
    | None => m !! i
    end.
Proof.
  induction parsed as [|r ps IH]; intros m; [reflexivity|].
  cbn [fold_left List.filter]. rewrite IH. case_bool_decide as E.
  - rewrite last_cons.
    destruct (last (List.filter _ ps)); [reflexivity|].
    rewrite <- E. apply lookup_insert_eq.
  - destruct (last (List.filter _ ps)); [reflexivity|].
    now apply lookup_insert_ne.
Qed.

(** The mapping sends an id to the last record that carries it. *)
Lemma build_id_map_lookup parsed i :
  build_id_map parsed !! i = last (List.filter (fun r => bool_decide (q_id r = i)) parsed).
Proof.
  unfold build_id_map. rewrite build_id_map_from, lookup_empty.
  now destruct (last _).
Qed.

Lemma load_questions_internal_cases fs self :
  _load_questions_internal fs self =
  match loading fs with
  | Raise e => (Raise e, self)
  | Return parsed =>
      (Return tt,
       {| _used := _used self; _questions := parsed;
          _id_map := build_id_map parsed; _mtime := _mtime self |})
  end.
Proof.
  unfold _load_questions_internal, loading, nonempty.
  destruct fs as [|mt|mt lines|mt err]; try reflexivity.
  cbn [isfile negb reading]. now destruct (parse_lines lines).
Qed.

Lemma loading_returns fs parsed :
  loading fs = Return parsed ->
  isfile fs = true /\ parsed = parse_lines (read_lines fs) /\ parsed <> []
  /\ exists mt, fs = Regular mt (read_lines fs).
Proof.
  destruct fs as [|mt|mt lines|mt err]; try discriminate.
  cbn [loading read_lines isfile]. destruct (parse_lines lines) eqn:E; [discriminate|].
  cbn [nonempty]. intros [= <-]. repeat split; [discriminate | now exists mt].
Qed.

(** Loading raises its own two exceptions, or the one of reading. *)
Lemma loading_raises fs e :
  loading fs = Raise e ->
  e = ResourceNotFound \/ e = EmptyStore \/ exists err, e = raised_by err.
Proof.
  destruct fs as [|mt|mt lines|mt err]; cbn [loading].
  - intros [= <-]. now left.
  - intros [= <-]. now left.
  - destruct (nonempty _); [discriminate|]. intros [= <-]. right. now left.
  - intros [= <-]. right. right. now exists err.
Qed.

Lemma raised_by_not_own err :
  raised_by err <> ResourceNotFound /\ raised_by err <> EmptyStore
  /\ raised_by err <> Exhausted /\ raised_by err <> UnknownQuestion.
Proof. destruct err; repeat split; discriminate. Qed.

Lemma reload_absent force fs self :
  getmtime fs = None -> _reload_if_needed force fs self = (Raise ResourceNotFound, self).
Proof. intros H. unfold _reload_if_needed. now rewrite H. Qed.

Lemma reload_current fs m self :
  getmtime fs = Some m -> _mtime self = Some m ->
  _reload_if_needed false fs self = (Return tt, self).
Proof.
  intros Hfs Hm. unfold _reload_if_needed, stale. rewrite Hfs, Hm.
  simpl. now rewrite Z.eqb_refl.
Qed.

Lemma reload_stale force fs m self :
  getmtime fs = Some m -> stale force (_mtime self) m = true ->
  _reload_if_needed force fs self =
  match loading fs with
  | Raise e => (Raise e, self)
  | Return _ => (Return tt, reloaded fs m self)
  end.
Proof.
  intros Hfs Hst. unfold _reload_if_needed. rewrite Hfs, Hst.
  unfold bind. rewrite load_questions_internal_cases.
  destruct (loading fs) as [parsed|e] eqn:E; [|reflexivity].
  apply loading_returns in E as (_ & -> & _). reflexivity.
Qed.

Lemma stale_changed m0 m : m0 <> m -> stale false (Some m0) m = true.
Proof. intros H. unfold stale. simpl. apply negb_true_iff, Z.eqb_neq, H. Qed.

End Store.

(** * Reading through the reload check *)

Section Reads.
Context {U : Unicode}.

(** [_reload_if_needed] raises nothing but what loading raises. *)
Lemma reload_raises force fs self e self' :
  _reload_if_needed force fs self = (Raise e, self') ->
  self' = self
  /\ (e = ResourceNotFound \/ e = EmptyStore \/ exists err, e = raised_by err).
Proof.
  unfold _reload_if_needed. destruct (getmtime fs) as [m|].
  - destruct (stale force (_mtime self) m); [|discriminate].
    unfold bind. rewrite load_questions_internal_cases.
    destruct (loading fs) as [parsed|e0] eqn:E; [discriminate|].
    intros [= <- <-]. split; [reflexivity | now apply (loading_raises fs)].
  - intros [= <- <-]. split; [reflexivity | left; reflexivity].
Qed.

(** When the reload check raises, loading the path raises the same. *)
Lemma reload_raises_loading force fs self e self' :
  _reload_if_needed force fs self = (Raise e, self') ->
  self' = self /\ loading fs = Raise e.
Proof.
  unfold _reload_if_needed. destruct (getmtime fs) as [m|] eqn:Hfs.
  - destruct (stale force (_mtime self) m); [|discriminate].
    unfold bind. rewrite load_questions_internal_cases.
    destruct (loading fs) as [parsed|e0] eqn:E; [discriminate|].
    now intros [= <- <-].
  - intros [= <- <-]. now destruct fs.
Qed.

(** The reload check never raises the two exceptions of the calls
    themselves. *)
Lemma reload_raises_not force fs self e self' :
  _reload_if_needed force fs self = (Raise e, self') ->
  e <> UnknownQuestion /\ e <> Exhausted.
Proof.
  intros H. apply reload_raises in H as [_ [-> | [-> | [err ->]]]].
  - split; discriminate.
  - split; discriminate.
  - split; apply raised_by_not_own.
Qed.

(** C1: once the reload check of the call has passed, [validate_answer]
    raises [UnknownQuestion] exactly when the id is not a key of the
    mapping; for a key it returns [False] on [None], and on a string it
    returns whether the two normalised answers are equal.  When the reload
    check raises, the call raises the same, which is never
    [UnknownQuestion]. *)
Theorem validate_answer_spec fs self question_id :
  match _reload_if_needed false fs self with
  | (Raise e, self') =>
      e <> UnknownQuestion /\
      forall user_answer,
        validate_answer fs question_id user_answer self = (Raise e, self')
  | (Return _, self') =>
      (forall user_answer,
         fst (validate_answer fs question_id user_answer self) = Raise UnknownQuestion
         <-> _id_map self' !! question_id = None)
      /\ (forall rec, _id_map self' !! question_id = Some rec ->
            validate_answer fs question_id None self = (Return false, self')
            /\ forall s, exists b,
                 validate_answer fs question_id (Some s) self = (Return b, self')
                 /\ (b = true <->
                     _normalize_answer (Some (q_answer rec)) = _normalize_answer (Some s)))
  end.
Proof.
  unfold validate_answer, bind.
  destruct (_reload_if_needed false fs self) as [[[]|e] self'] eqn:E.
  - split.
    + intros user_answer. destruct (_id_map self' !! question_id) as [rec|].
      * split; [|discriminate]. now destruct user_answer.
      * split; reflexivity.
    + intros rec ->. split; [reflexivity|]. intros s. eexists. split; [reflexivity|].
      apply bool_decide_eq_true.
  - split; [|reflexivity].
    now apply reload_raises_not in E.
Qed.

(** C8, amended: each of [load_questions], [get_random_question] and
    [validate_answer] starts by asking for the modification time of the
    path.  With nothing at the path the call raises [ResourceNotFound] and
    leaves the cached data alone.  With a time other than the recorded one
    the path is loaded again: a file with a valid line is parsed, the new
    sequence and mapping replace the old ones and the call runs on them;
    otherwise the call raises [ResourceNotFound] (no regular file),
    [EmptyStore] (no valid line) or the exception of reading, and the
    cached data stay.  With the recorded time nothing is looked at and
    nothing is parsed: the call is served from the cached data whatever is
    at the path, a path that is no longer a regular file included. *)
Theorem reads_reload_first fs self choice question_id user_answer :
  (getmtime fs = None ->
     reads_raise fs self choice question_id user_answer ResourceNotFound)
  /\ (forall m, getmtime fs = Some m -> _mtime self <> Some m ->
        match fs with
        | Regular _ lines =>
            if nonempty (parse_lines lines) then
              _reload_if_needed false fs self = (Return tt, reloaded fs m self)
              /\ _questions (reloaded fs m self) = parse_lines lines
              /\ _id_map (reloaded fs m self) = build_id_map (parse_lines lines)
              /\ _reload_if_needed false fs (reloaded fs m self)
                  = (Return tt, reloaded fs m self)
              /\ load_questions fs self =
                   (Return (map (fun rec => (q_question rec, q_answer rec))
                                (parse_lines lines)),
                    reloaded fs m self)
              /\ get_random_question fs choice self
                 = get_random_question fs choice (reloaded fs m self)
              /\ validate_answer fs question_id user_answer self
                 = validate_answer fs question_id user_answer (reloaded fs m self)
            else reads_raise fs self choice question_id user_answer EmptyStore
        | Failing _ err =>
            reads_raise fs self choice question_id user_answer (raised_by err)
        | Absent | NotRegular _ =>
            reads_raise fs self choice question_id user_answer ResourceNotFound
        end)
  /\ (forall m, getmtime fs = Some m -> _mtime self = Some m ->
        _reload_if_needed false fs self = (Return tt, self)
        /\ load_questions fs self =
             (Return (map (fun rec => (q_question rec, q_answer rec)) (_questions self)),
              self)
        /\ forall fs', getmtime fs' = Some m ->
             get_random_question fs choice self = get_random_question fs' choice self
             /\ validate_answer fs question_id user_answer self
                = validate_answer fs' question_id user_answer self).
Proof.
  split; [|split].
  - intros H. unfold reads_raise, load_questions, get_random_question, validate_answer, bind.
    now rewrite (reload_absent false fs self H).
  - intros m Hfs Hm.
    assert (Hst : stale false (_mtime self) m = true).
    { destruct (_mtime self) as [m0|]; [|reflexivity].
      apply stale_changed. congruence. }
    pose proof (reload_stale false fs m self Hfs Hst) as Hr.
    pose proof (reload_current fs m (reloaded fs m self) Hfs eq_refl) as Hc.
    unfold reads_raise, load_questions, get_random_question, validate_answer, bind.
    rewrite Hr, Hc. clear Hr Hc.
    destruct fs as [|mt|mt lines|mt err]; cbn [loading].
    + repeat split.
    + repeat split.
    + destruct (nonempty (parse_lines lines)); repeat split.
    + repeat split.
  - intros m Hfs Hm.
    pose proof (reload_current fs m self Hfs Hm) as Hr.
    split; [exact Hr|]. split.
    + unfold load_questions, bind. now rewrite Hr.
    + intros fs' Hfs'. pose proof (reload_current fs' m self Hfs' Hm) as Hr'.
      unfold get_random_question, validate_answer, bind. now rewrite Hr, Hr'.
Qed.

End Reads.

Lemma validate_answer_spec_witness :
  @validate_answer ascii_unicode sample_file
    (@_compute_id ascii_unicode (lit "Capital of France?")) None (loaded sample_file)
  = (Return false, loaded sample_file).
Proof.
  pose proof (@validate_answer_spec ascii_unicode sample_file (loaded sample_file)
                (@_compute_id ascii_unicode (lit "Capital of France?"))) as H.
  rewrite (reload_current sample_file 5) in H by (vm_compute; reflexivity).
  destruct H as [_ H]. eapply H. vm_compute. reflexivity.
Defined.

Lemma reads_reload_first_witness :
  @load_questions ascii_unicode (NotRegular 5) (loaded sample_file)
  = (Return (map (fun rec => (q_question rec, q_answer rec))
                 (_questions (loaded sample_file))),
     loaded sample_file).
Proof.
  apply (proj2 (proj2 (@reads_reload_first ascii_unicode (NotRegular 5)
                  (loaded sample_file) 0 (lit "0123") (Some (lit "x")))) 5%Z).
  - reflexivity.
  - vm_compute. reflexivity.
Defined.

(** C8 as stated fails where the path stops being a regular file and keeps
    its modification time: nothing is at the path that could be read, and
    the three calls are served from the cached data instead of raising
    [ResourceNotFound]. *)
Lemma reads_serve_cache_when_file_is_gone :
  let self := loaded sample_file in
  let fs := NotRegular 5 in
  isfile fs = false
  /\ _mtime self = getmtime fs
  /\ fst (@_load_questions_internal ascii_unicode fs self) = Raise ResourceNotFound
  /\ fst (@load_questions ascii_unicode fs self)
     = Return [ (lit "Capital of France?", lit "Paris");
                (lit "How many legs has a spider?", lit "eight");
                (lit "Capital of France?", lit "Lutetia") ]
  /\ fst (@validate_answer ascii_unicode fs
             (@_compute_id ascii_unicode (lit "How many legs has a spider?"))
             (Some (lit "Eight")) self) = Return true
  /\ (exists q, fst (@get_random_question ascii_unicode fs 0 self) = Return q).
Proof.
  cbv zeta. split; [reflexivity|]. split; [vm_compute; reflexivity|].
  split; [reflexivity|]. split; [vm_compute; reflexivity|].
  split; [vm_compute; reflexivity|].
  eexists. vm_compute. reflexivity.
Qed.

(** * The dispenser *)

Section Dispenser.
Context {U : Unicode}.

(** What the method does after the reload check. *)
Lemma get_random_question_cases fs choice self :
  get_random_question fs choice self =
  match _reload_if_needed false fs self with
  | (Raise e, self') => (Raise e, self')
  | (Return _, self') =>
      match List.filter (unused self') (_questions self') with
      | [] => (Raise Exhausted, self')
      | first :: rest =>
          let chosen := nth (choice mod length (first :: rest)) (first :: rest) first in
          (Return (question_dict chosen), mark_used chosen self')
      end
  end.
Proof.
  unfold get_random_question, bind.
  destruct (_reload_if_needed false fs self) as [[[]|e] self']; [|reflexivity].
  now destruct (List.filter (unused self') (_questions self')).
Qed.

Lemma chosen_available {A} (choice : nat) (first : A) rest :
  In (nth (choice mod length (first :: rest)) (first :: rest) first) (first :: rest).
Proof. apply nth_In, Nat.mod_upper_bound. discriminate. Qed.


End Dispenser.


(** * Dispensing without replacement *)

Section WithoutReplacement.
Context {U : Unicode} (fs : path_state) (m : Z) (Hfs : getmtime fs = Some m).

(** With the recorded modification time nothing is reloaded. *)
Lemma get_random_question_current choice self :
  _mtime self = Some m ->
  get_random_question fs choice self =
  match List.filter (unused self) (_questions self) with
  | [] => (Raise Exhausted, self)
  | first :: rest =>
      let chosen := nth (choice mod length (first :: rest)) (first :: rest) first in
      (Return (question_dict chosen), mark_used chosen self)
  end.
Proof.
  intros Hm. rewrite get_random_question_cases.
  now rewrite (reload_current fs m self Hfs Hm).
Qed.

Lemma unused_false self rec : unused self rec = false <-> q_id rec ∈ _used self.
Proof.
  unfold unused. rewrite negb_false_iff. apply bool_decide_eq_true.
Qed.

Lemma ids_elem self i :
  i ∈ ids self <-> exists rec, In rec (_questions self) /\ q_id rec = i.
Proof.
  unfold ids. rewrite elem_of_list_to_set, list_elem_of_In, List.in_map_iff.
  split; intros (rec & H1 & H2); exists rec; tauto.
Qed.

Lemma all_used self :
  (forall rec, In rec (_questions self) -> q_id rec ∈ _used self) <-> ids self ⊆ _used self.
Proof.
  split.
  - intros H i Hi. apply ids_elem in Hi as (rec & Hin & <-). now apply H.
  - intros H rec Hin. apply H, ids_elem. now exists rec.
Qed.

(** [Exhausted] is raised exactly when every record's id is in the used set. *)
Lemma exhausted_iff choice self :
  _mtime self = Some m ->
  fst (get_random_question fs choice self) = Raise Exhausted
  <-> forall rec, In rec (_questions self) -> q_id rec ∈ _used self.
Proof.
  intros Hm. rewrite get_random_question_current by assumption.
  destruct (List.filter (unused self) (_questions self)) as [|first rest] eqn:Ef.
  - split; [|reflexivity]. intros _ rec Hin.
    apply unused_false. revert rec Hin. now apply filter_nil.
  - split; [discriminate|]. intros H.
    assert (Hnil : List.filter (unused self) (_questions self) = []).
    { apply filter_nil. intros rec Hin. now apply unused_false, H. }
    congruence.
Qed.

Lemma field_id chosen : field "id" (question_dict chosen) = Some (VStr (q_id chosen)).
Proof. reflexivity. Qed.

(** As many calls as there are ids left all succeed, with ids that were not
    used and are pairwise distinct, and leave every id used. *)
Lemma dispense_all : forall draws self,
  _mtime self = Some m ->
  _used self ⊆ ids self ->
(length draws + size (_used self))%nat = size (ids self) ->
  exists qs self',
    dispense fs draws self = (qs, Return tt, self')
    /\ length qs = length draws
    /\ _mtime self' = Some m
    /\ _questions self' = _questions self
    /\ _used self' = ids self
    /\ List.NoDup (map (field "id") qs)
    /\ Forall (fun q => exists i, field "id" q = Some (VStr i)
                                  /\ (i ∉ _used self) /\ (i ∈ ids self)) qs.
Proof.
  induction draws as [|r ds IH]; intros self Hm Hsub Hsize.
  - exists [], self. cbn [dispense length map].
    split; [reflexivity|]. split; [reflexivity|]. split; [assumption|].
    split; [reflexivity|].
    split; [apply set_subseteq_size_eq; [assumption | simpl in Hsize; lia]|].
    split; constructor.
  - cbn [dispense]. rewrite get_random_question_current by assumption.
    destruct (List.filter (unused self) (_questions self)) as [|first rest] eqn:Ef.
    + exfalso. assert (Hall : ids self ⊆ _used self).
      { apply all_used. intros rec Hin. apply unused_false.
        revert rec Hin. now apply filter_nil. }
      apply subseteq_size in Hall. simpl in Hsize. lia.
    + cbv zeta. set (chosen := nth _ _ _).
      assert (Hin : In chosen (first :: rest)) by apply chosen_available.
      rewrite <- Ef in Hin. apply List.filter_In in Hin as [Hin Hun].
      assert (Hfresh : q_id chosen ∉ _used self).
      { intros Hu. apply unused_false in Hu. congruence. }
      assert (Hid : q_id chosen ∈ ids self) by (apply ids_elem; now exists chosen).
      destruct (IH (mark_used chosen self)) as (qs & self' & Hd & Hlen & Hm' & Hq & Hu & Hnd & Hall).
      * exact Hm.
      * cbn [mark_used _used]. change (ids (mark_used chosen self)) with (ids self).
        apply union_subseteq. split; [now apply singleton_subseteq_l | assumption].
      * cbn [mark_used _used]. change (ids (mark_used chosen self)) with (ids self).
        rewrite size_union by now apply disjoint_singleton_l.
        rewrite size_singleton. simpl in Hsize. lia.
      * rewrite Hd. exists (question_dict chosen :: qs), self'.
        change (ids (mark_used chosen self)) with (ids self) in *.
        cbn [mark_used _used _questions] in *.
        split; [reflexivity|]. split; [simpl; now rewrite Hlen|].
        split; [assumption|]. split; [assumption|]. split; [assumption|].
        split.
        -- cbn [map]. constructor; [|assumption].
           rewrite field_id. intros Hdup. apply List.in_map_iff in Hdup as (q & Hq1 & Hq2).
           rewrite List.Forall_forall in Hall. destruct (Hall q Hq2) as (i & Hi & Hni & _).
           rewrite Hi in Hq1. assert (i = q_id chosen) by congruence. subst i.
           apply Hni. apply elem_of_union_l. now apply elem_of_singleton.
        -- constructor.
           ++ exists (q_id chosen). now rewrite field_id.
           ++ eapply List.Forall_impl; [|exact Hall].
              intros q (i & Hi & Hni & Hii). exists i. repeat split; try assumption.
              intros Hu'. apply Hni. now apply elem_of_union_r.
Qed.

Lemma exhausted_when_all_used choice self :
  _mtime self = Some m -> _used self = ids self ->
  get_random_question fs choice self = (Raise Exhausted, self).
Proof.
  intros Hm Hu. rewrite get_random_question_current by assumption.
  assert (Hnil : List.filter (unused self) (_questions self) = []).
  { apply filter_nil. intros rec Hin. apply unused_false. rewrite Hu.
    apply ids_elem. now exists rec. }
  now rewrite Hnil.
Qed.

Lemma ids_size_distinct self :
  List.NoDup (map q_id (_questions self)) -> size (ids self) = length (_questions self).
Proof.
  intros H. unfold ids. rewrite size_list_to_set.
  - apply length_map.
  - now apply NoDup_ListNoDup.
Qed.

End WithoutReplacement.

(** * Stable ids *)

Section Digest.
Import Sha256.

Lemma round_length v kw : length v = 8%nat -> length (round v kw) = 8%nat.
Proof.
  intros H. do 9 (destruct v as [|? v]; try discriminate). reflexivity.
Qed.

Lemma rounds_length kws : forall v,
  length v = 8%nat -> length (fold_left round kws v) = 8%nat.
Proof.
  induction kws as [|kw kws IH]; intros v H; [exact H|].
  simpl. apply IH. now apply round_length.
Qed.

Lemma compress_length h block : length h = 8%nat -> length (compress h block) = 8%nat.
Proof.
  intros H. unfold compress. rewrite length_map, length_combine, rounds_length, H by exact H.
  reflexivity.
Qed.

Lemma sha256_length msg : length (sha256 msg) = 8%nat.
Proof.
  unfold sha256. generalize (blocks (length (pad msg)) (pad msg)). intros bs.
  assert (H : length H0 = 8%nat) by reflexivity. revert H. generalize H0.
  induction bs as [|b bs IH]; intros h H; [exact H|].
  simpl. apply IH. now apply compress_length.
Qed.

Lemma hex_digit_hex d : d < 16 -> is_hex (hex_digit d) = true.
Proof.
  intros H. unfold is_hex, hex_digit, is_digit.
  destruct (N.ltb_spec d 10).
  - replace (48 <=? 48 + d) with true by (symmetry; apply N.leb_le; lia).
    replace (48 + d <=? 57) with true by (symmetry; apply N.leb_le; lia).
    reflexivity.
  - replace (97 <=? 87 + d) with true by (symmetry; apply N.leb_le; lia).
    replace (87 + d <=? 102) with true by (symmetry; apply N.leb_le; lia).
    apply orb_true_r.
Qed.

Lemma hex_of_shape n x : length (hex_of n x) = n /\ forallb is_hex (hex_of n x) = true.
Proof.
  induction n as [|n [IH1 IH2]]; [now split|]. cbn [hex_of length forallb]. split.
  - now rewrite IH1.
  - rewrite IH2, hex_digit_hex; [reflexivity|]. now apply N.mod_lt.
Qed.

Lemma hexdigest_shape h :
  length (hexdigest h) = (8 * length h)%nat /\ forallb is_hex (hexdigest h) = true.
Proof.
  unfold hexdigest. induction h as [|x h [IH1 IH2]]; [now split|].
  cbn [flat_map]. rewrite length_app, forallb_app, IH1, IH2.
  destruct (hex_of_shape 8 x) as [-> ->]. split; [simpl; lia | reflexivity].
Qed.

End Digest.

Section Ids.
Context {U : Unicode}.

Lemma compute_id_shape q :
  length (_compute_id q) = 64%nat /\ forallb is_hex (_compute_id q) = true.
Proof.
  unfold _compute_id.
  destruct (hexdigest_shape (Sha256.sha256 (Sha256.utf8 (strip q)))) as [H1 H2].
  now rewrite sha256_length in H1.
Qed.

Lemma parse_line_id raw rec :
  parse_line raw = Some rec ->
  q_id rec = _compute_id (q_question rec) /\ strip (q_question rec) = q_question rec.
Proof.
  unfold parse_line.
  destruct (negb (nonempty (strip raw))); [discriminate|].
  destruct (negb (contains 124 (strip raw))); [discriminate|].
  destruct (nonempty _ && nonempty _); [|discriminate].
  intros [= <-]. cbn [q_id q_question]. split; [reflexivity | apply strip_idem].
Qed.

Lemma parse_lines_ids lines :
  Forall (fun rec => q_id rec = _compute_id (q_question rec)
                     /\ strip (q_question rec) = q_question rec)
         (parse_lines lines).
Proof.
  rewrite parse_lines_omap. apply List.Forall_forall. intros rec Hin.
  apply list_elem_of_In, list_elem_of_omap in Hin as (raw & _ & Hraw).
  now apply parse_line_id in Hraw.
Qed.

(** The last record that carries an id is the one the mapping holds. *)
Lemma build_id_map_last before rec after :
  (forall rec', In rec' after -> q_id rec' <> q_id rec) ->
  build_id_map (before ++ rec :: after) !! q_id rec = Some rec.
Proof.
  intros H. rewrite build_id_map_lookup, List.filter_app. cbn [List.filter].
  rewrite bool_decide_eq_true_2 by reflexivity.
  assert (Hnil : List.filter (fun r => bool_decide (q_id r = q_id rec)) after = []).
  { apply filter_nil. intros r Hr. apply bool_decide_eq_false_2. now apply H. }
  rewrite Hnil. apply last_snoc.
Qed.

End Ids.

(** * Properties of the store *)

Example sha256_constants :
  length Sha256.K = 64%nat /\ length Sha256.H0 = 8%nat
  /\ nth 0 Sha256.K 0 = 0x428a2f98 /\ nth 63 Sha256.K 0 = 0xc67178f2
  /\ nth 0 Sha256.H0 0 = 0x6a09e667 /\ nth 7 Sha256.H0 0 = 0x5be0cd19.
Proof. compute_each. Qed.

Example utf8_examples :
  Sha256.utf8 [233; 8364; 128512] = [195; 169; 226; 130; 172; 240; 159; 152; 128].
Proof. vm_compute. reflexivity. Qed.

(** Every text of the table has the digest the table gives. *)
Lemma known_digests_hold :
  forallb
    (fun td => bool_decide
       (Sha256.hexdigest (Sha256.sha256 (Sha256.utf8 (fst td))) = lit (snd td)))
    known_digests = true.
Proof. vm_compute. reflexivity. Qed.

(** The UTF-8 bytes of an ASCII text are its characters. *)
Lemma utf8_ascii s : asc s -> Sha256.utf8 s = s.
Proof.
  induction 1 as [|c s Hc _ IH]; [reflexivity|].
  unfold Sha256.utf8 in *. cbn [flat_map]. rewrite IH.
  unfold Sha256.utf8_char. unfold is_ascii in Hc. now rewrite Hc.
Qed.

(** C6: the id of a question text is the lowercase hex digest (64
    characters) of SHA-256 over the UTF-8 bytes of the text without the
    whitespace around it, and there is one such text.  What the digest,
    the bytes and the hex form are is fixed on texts whose digest is known:
    a text that trims to the empty text, to one of the messages published
    with the standard, or to a text with characters of two, three and four
    bytes, gets the known digest; the bytes of an ASCII text are its
    characters.  Texts that trim to the same text have the same id; every
    loaded record carries the id of its question text, and the mapping
    sends an id to the last loaded record that carries it. *)
Theorem compute_id_spec {U : Unicode} :
  (forall q,
     (exists t, trimmed q t /\ forall t', trimmed q t' -> t' = t)
     /\ (forall t, trimmed q t ->
           _compute_id q = Sha256.hexdigest (Sha256.sha256 (Sha256.utf8 t)))
     /\ length (_compute_id q) = 64%nat
     /\ forallb is_hex (_compute_id q) = true)
  /\ (forall q text digest,
        In (text, digest) known_digests -> trimmed q text -> _compute_id q = lit digest)
  /\ (forall t, asc t -> Sha256.utf8 t = t)
  /\ (forall q1 q2 t, trimmed q1 t -> trimmed q2 t -> _compute_id q1 = _compute_id q2)
  /\ (forall fs self self',
        _load_questions_internal fs self = (Return tt, self') ->
        Forall (fun rec =>
                  q_id rec = Sha256.hexdigest (Sha256.sha256 (Sha256.utf8 (q_question rec))))
               (_questions self')
        /\ (forall i,
              _id_map self' !! i
              = last (List.filter (fun r => bool_decide (q_id r = i)) (_questions self')))
        /\ (forall before rec after,
              _questions self' = before ++ rec :: after ->
              (forall rec', In rec' after -> q_id rec' <> q_id rec) ->
              _id_map self' !! q_id rec = Some rec)).
Proof.
  split; [|split; [|split; [|split]]].
  - intros q. split; [|split].
    + exists (strip q). split; [apply strip_trimmed|].
      intros t' Ht'. now apply trimmed_strip.
    + intros t Ht. apply trimmed_strip in Ht. now subst t.
    + apply compute_id_shape.
  - intros q text digest Hin Hq. apply trimmed_strip in Hq. unfold _compute_id.
    rewrite <- Hq. pose proof known_digests_hold as H. rewrite forallb_forall in H.
    apply (bool_decide_eq_true_1 _ (H _ Hin)).
  - apply utf8_ascii.
  - intros q1 q2 t H1 H2. apply trimmed_strip in H1, H2. unfold _compute_id. congruence.
  - intros fs self self'. rewrite load_questions_internal_cases.
    destruct (loading fs) as [parsed|e] eqn:E; [|discriminate].
    apply loading_returns in E as (_ & -> & _).
    intros H. apply pair_equal_spec in H as [_ <-]. cbn [_questions _id_map].
    split; [|split].
    + eapply List.Forall_impl; [|apply parse_lines_ids].
      intros rec [Hid Hq]. rewrite Hid. unfold _compute_id. now rewrite Hq.
    + intros i. apply build_id_map_lookup.
    + intros before rec after -> Hlast. now apply build_id_map_last.
Qed.

Lemma compute_id_witness :
  @_compute_id ascii_unicode (lit "  abc ")
  = lit "ba7816bf8f01cfea414140de5dae2223b00361a396177a9cb410ff61f20015ad".
Proof.
  apply (proj1 (proj2 (@compute_id_spec ascii_unicode)) (lit "  abc ") (lit "abc")).
  - right. left. reflexivity.
  - exists (lit "  "), (lit " "). split; [reflexivity|].
    split; [repeat constructor|]. split; [repeat constructor|].
    split; intros c [= <-]; reflexivity.
Defined.

Example sample_file_loaded :
  map (fun rec => (q_question rec, q_answer rec)) (_questions (loaded sample_file))
  = [ (lit "Capital of France?", lit "Paris");
      (lit "How many legs has a spider?", lit "eight");
      (lit "Capital of France?", lit "Lutetia") ]
  /\ (q_answer <$> _id_map (loaded sample_file) !! @_compute_id ascii_unicode (lit "Capital of France?"))
     = Some (lit "Lutetia").
Proof. compute_each. Qed.

(** C7: the loop of [_load_questions_internal] keeps a line exactly when
    the contract accepts it: the line has a delimiter, and what stands
    before the first delimiter and what stands after it are both non-empty
    once trimmed; the record holds the two trimmed parts and the id of the
    question.  The records installed are those of the accepted lines, in
    the order of the lines; every other line is skipped without error.
    Loading raises [ResourceNotFound] exactly when there is no regular file
    at the path, and [EmptyStore] exactly when the file is read to its end
    and no line of it is accepted; a file that cannot be read raises the
    exception of reading. *)
Theorem load_questions_internal_spec {U : Unicode} (L : UnicodeLaws U) fs self :
  (forall raw rec, parse_line raw = Some rec <-> accepted raw rec)
  /\ match fs with
     | Regular _ lines =>
         (forall recs, kept lines recs <-> recs = parse_lines lines)
         /\ _load_questions_internal fs self =
            match parse_lines lines with
            | [] => (Raise EmptyStore, self)
            | parsed =>
                (Return tt,
                 {| _used := _used self; _questions := parsed;
                    _id_map := build_id_map parsed; _mtime := _mtime self |})
            end
     | Failing _ err => _load_questions_internal fs self = (Raise (raised_by err), self)
     | Absent | NotRegular _ =>
         _load_questions_internal fs self = (Raise ResourceNotFound, self)
     end
  /\ (fst (_load_questions_internal fs self) = Raise ResourceNotFound
      <-> isfile fs = false)
  /\ (fst (_load_questions_internal fs self) = Raise EmptyStore
      <-> exists mt lines,
            fs = Regular mt lines
            /\ forall raw rec, In raw lines -> ~ accepted raw rec).
Proof.
  assert (Hbar : isspace 124 = false) by apply bar_not_space.
  split; [intros raw rec; now apply parse_line_accepted|].
  rewrite load_questions_internal_cases.
  destruct fs as [|mt|mt lines|mt err]; cbn [loading isfile].
  - split; [reflexivity|]. split; [tauto|].
    split; [discriminate | intros (? & ? & ? & _); discriminate].
  - split; [reflexivity|]. split; [tauto|].
    split; [discriminate | intros (? & ? & ? & _); discriminate].
  - pose proof (parse_lines_nil lines Hbar) as Hnil.
    destruct (parse_lines lines) as [|rec recs] eqn:E; cbn [nonempty fst].
    + split; [split; [intros recs; rewrite <- E; now apply parse_lines_kept | reflexivity]|].
      split; [split; discriminate|].
      split; [intros _; exists mt, lines; split; [reflexivity | now apply Hnil]|reflexivity].
    + split; [split; [intros recs'; rewrite <- E; now apply parse_lines_kept | reflexivity]|].
      split; [split; discriminate|].
      split; [discriminate|]. intros (mt' & lines' & [= _ <-] & Hn).
      apply Hnil in Hn. discriminate.
  - split; [reflexivity|]. cbn [fst].
    split; [split; [intros H; now destruct err | discriminate]|].
    split; [intros H; now destruct err | intros (? & ? & ? & _); discriminate].
Qed.

Lemma load_questions_internal_witness :
  @accepted ascii_unicode (lit "  Who | wrote | it?  ")
    {| q_id := @_compute_id ascii_unicode (lit "Who");
       q_question := lit "Who"; q_answer := lit "wrote | it?" |}.
Proof.
  apply (proj1 (load_questions_internal_spec ascii_unicode_laws Absent blank)).
  vm_compute. reflexivity.
Defined.

(** * Properties of the dispenser *)

(** C2, as the code has it: questions are told apart by id.  With no reload
    and an empty used set, as many calls as the store has distinct ids, D,
    return D pairwise distinct ids of loaded records, and every call after
    them raises [Exhausted]; [Exhausted] is raised exactly when every
    record's id is in the used set.  D is the number of records when no two
    of them share an id. *)
Theorem dispense_without_replacement {U : Unicode} fs m self (draws : list nat) :
  getmtime fs = Some m -> _mtime self = Some m ->
  _used self = ∅ ->
  length draws = size (ids self) ->
  (exists qs self',
     dispense fs draws self = (qs, Return tt, self')
     /\ length qs = size (ids self)
     /\ List.NoDup (map (field "id") qs)
     /\ Forall (fun q => exists i, field "id" q = Some (VStr i) /\ (i ∈ ids self)) qs
     /\ forall choice, get_random_question fs choice self' = (Raise Exhausted, self'))
  /\ (forall self0 choice,
        _mtime self0 = Some m ->
        fst (get_random_question fs choice self0) = Raise Exhausted
        <-> forall rec, In rec (_questions self0) -> q_id rec ∈ _used self0)
  /\ (List.NoDup (map q_id (_questions self)) -> size (ids self) = length (_questions self)).
Proof.
  intros Hfs Hm Hused Hlen. split; [|split].
  - destruct (dispense_all fs m Hfs draws self) as (qs & self' & Hd & Hl & Hm' & Hq & Hu & Hnd & Hall).
    + exact Hm.
    + rewrite Hused. apply empty_subseteq.
    + rewrite Hused, size_empty. lia.
    + exists qs, self'. split; [exact Hd|]. split; [congruence|]. split; [exact Hnd|].
      split.
      * eapply List.Forall_impl; [|exact Hall].
        intros q (i & Hi & _ & Hin). now exists i.
      * intros choice. apply (exhausted_when_all_used fs m Hfs); [exact Hm'|].
        unfold ids. now rewrite Hq.
  - intros self0 choice Hm0. now apply (exhausted_iff fs m Hfs).
  - apply ids_size_distinct.
Qed.

Lemma dispense_without_replacement_witness :
  exists qs self',
    @dispense ascii_unicode sample_file [5; 7]%nat (loaded sample_file) = (qs, Return tt, self')
    /\ length qs = size (ids (loaded sample_file))
    /\ List.NoDup (map (field "id") qs)
    /\ Forall (fun q => exists i, field "id" q = Some (VStr i)
                                  /\ (i ∈ ids (loaded sample_file))) qs
    /\ forall choice,
         @get_random_question ascii_unicode sample_file choice self' = (Raise Exhausted, self').
Proof.
  apply (@dispense_without_replacement ascii_unicode sample_file 5 (loaded sample_file)
           [5; 7]%nat); vm_compute; reflexivity.
Defined.

(** C2 as stated fails: a store of two records that share their question
    hands out one id, and the second of two calls raises [Exhausted],
    whichever record the first call drew. *)
Lemma dispense_duplicate_questions :
  @__init__ ascii_unicode duplicate_file = Return (loaded duplicate_file)
  /\ _used (loaded duplicate_file) = ∅
  /\ length (_questions (loaded duplicate_file)) = 2%nat
  /\ snd (fst (@dispense ascii_unicode duplicate_file [0; 0]%nat (loaded duplicate_file)))
     = Raise Exhausted
  /\ snd (fst (@dispense ascii_unicode duplicate_file [1; 0]%nat (loaded duplicate_file)))
     = Raise Exhausted
  /\ length (fst (fst (@dispense ascii_unicode duplicate_file [0; 0]%nat
                         (loaded duplicate_file)))) = 1%nat.
Proof. split; [reflexivity|]. compute_each. Qed.

(** C9, as the code has it: [clear_cache] returns, with the used set empty
    and the rest of the manager as it was, and [get_cache_size] then
    returns 0; from there, with no reload, as many calls as the store has
    distinct ids succeed again, with pairwise distinct ids, whatever had
    been used before. *)
Theorem clear_cache_resets {U : Unicode} self :
  exists self0,
    clear_cache self = (Return tt, self0)
    /\ _used self0 = ∅
    /\ _questions self0 = _questions self
    /\ _id_map self0 = _id_map self
    /\ _mtime self0 = _mtime self
    /\ get_cache_size self0 = (Return 0%nat, self0)
    /\ forall fs m (draws : list nat),
         getmtime fs = Some m -> _mtime self = Some m ->
         length draws = size (ids self) ->
         exists qs self',
           dispense fs draws self0 = (qs, Return tt, self')
           /\ length qs = size (ids self)
           /\ List.NoDup (map (field "id") qs)
           /\ (List.NoDup (map q_id (_questions self)) -> length qs = length (_questions self))
           /\ forall choice, get_random_question fs choice self' = (Raise Exhausted, self').
Proof.
  eexists. split; [reflexivity|]. cbn [_used _questions _id_map _mtime].
  split; [reflexivity|]. split; [reflexivity|]. split; [reflexivity|].
  split; [reflexivity|].
  split; [unfold get_cache_size; cbn [_used]; now rewrite size_empty|].
  intros fs m draws Hfs Hm Hlen.
  set (self0 := {| _used := ∅; _questions := _questions self;
                   _id_map := _id_map self; _mtime := _mtime self |}).
  destruct (dispense_all fs m Hfs draws self0) as (qs & self' & Hd & Hl & Hm' & Hq & Hu & Hnd & _).
  - exact Hm.
  - apply empty_subseteq.
  - cbn [self0 _used]. rewrite size_empty. change (ids self0) with (ids self). lia.
  - exists qs, self'. split; [exact Hd|]. split; [congruence|]. split; [exact Hnd|].
    split; [intros Hdistinct; rewrite <- (ids_size_distinct self Hdistinct); congruence|].
    intros choice. apply (exhausted_when_all_used fs m Hfs); [exact Hm'|].
    rewrite Hu. unfold ids. now rewrite Hq.
Qed.

Lemma clear_cache_resets_witness :
  snd (fst (@dispense ascii_unicode sample_file [0; 0; 0]%nat (loaded sample_file)))
  = Raise Exhausted
  /\ exists self0 qs self',
       @clear_cache exhausted_sample = (Return tt, self0)
       /\ get_cache_size self0 = (Return 0%nat, self0)
       /\ @dispense ascii_unicode sample_file [4; 1]%nat self0 = (qs, Return tt, self')
       /\ length qs = 2%nat.
Proof.
  split; [vm_compute; reflexivity|].
  destruct (@clear_cache_resets ascii_unicode exhausted_sample)
    as (self0 & Hc & _ & _ & _ & _ & Hs & Hd).
  destruct (Hd sample_file 5%Z [4; 1]%nat) as (qs & self' & Hq & Hl & _ & _);
    [vm_compute; reflexivity..|].
  exists self0, qs, self'. split; [exact Hc|]. split; [exact Hs|]. split; [exact Hq|].
  rewrite Hl. vm_compute. reflexivity.
Defined.

(** C9 as stated fails on the full count: on the store of two records that
    share their question, an exhausted dispenser that is cleared hands out
    one question, not two. *)
Lemma clear_cache_duplicate_questions :
  let exhausted := snd (@dispense ascii_unicode duplicate_file [0]%nat (loaded duplicate_file)) in
  let cleared := snd (clear_cache exhausted) in
  length (_questions cleared) = 2%nat
  /\ fst (@get_random_question ascii_unicode duplicate_file 0 exhausted) = Raise Exhausted
  /\ fst (get_cache_size cleared) = Return 0%nat
  /\ length (fst (fst (@dispense ascii_unicode duplicate_file [0; 0]%nat cleared))) = 1%nat
  /\ snd (fst (@dispense ascii_unicode duplicate_file [0; 0]%nat cleared)) = Raise Exhausted
  /\ snd (fst (@dispense ascii_unicode duplicate_file [1; 0]%nat cleared)) = Raise Exhausted.
Proof. compute_each. Qed.

(** * Examples from the specification *)

Example validate_round_trip :
  let fs := Regular 3 [lit "Capital of France? | Paris"] in
  let i := @_compute_id ascii_unicode (lit "Capital of France?") in
  map (fun a => fst (@validate_answer ascii_unicode fs i a (loaded fs)))
      [Some (lit "  paris "); Some (lit "PARIS!"); Some (lit "par is"); None]
  = [Return true; Return true; Return false; Return false]
  /\ fst (@validate_answer ascii_unicode fs (lit "0123") (Some (lit "Paris")) (loaded fs))
     = Raise UnknownQuestion
  /\ fst (@validate_answer ascii_unicode Absent i (Some (lit "Paris")) (loaded fs))
     = Raise ResourceNotFound.
Proof. compute_each. Qed.

Example reload_example :
  let fs := Regular 3 [lit "Capital of France? | Paris"] in
  let fs' := Regular 4 [lit "Capital of Italy? | Rome"] in
  let i := @_compute_id ascii_unicode (lit "Capital of France?") in
  fst (@validate_answer ascii_unicode fs' i (Some (lit "Paris")) (loaded fs))
  = Raise UnknownQuestion
  /\ fst (@load_questions ascii_unicode fs' (loaded fs))
     = Return [(lit "Capital of Italy?", lit "Rome")]
  /\ fst (@load_questions ascii_unicode (Regular 4 [lit "nothing"]) (loaded fs))
     = Raise EmptyStore.
Proof. compute_each. Qed.

(** * Managers reached by calls *)

Import Calls.

Section Reached.
Context {U : Unicode}.

Lemma parse_line_good raw rec : parse_line raw = Some rec -> good_entry rec.
Proof.
  unfold parse_line.
  destruct (negb (nonempty (strip raw))); [discriminate|].
  destruct (contains 124 (strip raw)) eqn:Ec; [|discriminate]. cbn [negb].
  destruct (contains_split1 124 (strip raw) Ec) as [_ Hq].
  destruct (strip (fst (split1 124 (strip raw)))) as [|c q] eqn:Eq; [discriminate|].
  destruct (strip (snd (split1 124 (strip raw)))) as [|d a] eqn:Ea; [discriminate|].
  cbn [nonempty andb]. intros [= <-]. unfold good_entry. cbn [q_id q_question q_answer].
  split; [reflexivity|]. split; [discriminate|]. split; [discriminate|].
  split; [rewrite <- Eq; apply strip_idem|]. split; [rewrite <- Ea; apply strip_idem|].
  rewrite <- Eq. unfold strip. now apply contains_rstrip, contains_lstrip.
Qed.

Lemma parse_lines_good lines : Forall good_entry (parse_lines lines).
Proof.
  rewrite parse_lines_omap. apply List.Forall_forall. intros rec Hin.
  apply list_elem_of_In, list_elem_of_omap in Hin as (raw & _ & Hraw).
  now apply parse_line_good in Hraw.
Qed.

(** When the reload check returns, it has kept the manager or swapped in
    the records of the file. *)
Lemma reload_returns force fs self self' :
  _reload_if_needed force fs self = (Return tt, self') ->
  exists m, getmtime fs = Some m
    /\ ((stale force (_mtime self) m = false /\ self' = self)
        \/ (stale force (_mtime self) m = true /\ isfile fs = true
            /\ parse_lines (read_lines fs) <> [] /\ self' = reloaded fs m self)).
Proof.
  destruct (getmtime fs) as [m|] eqn:Hfs.
  - intros H. exists m. split; [reflexivity|].
    destruct (stale force (_mtime self) m) eqn:Hst.
    + right. rewrite (reload_stale force fs m self Hfs Hst) in H.
      destruct (loading fs) as [parsed|e] eqn:E; [|discriminate].
      apply loading_returns in E as (Hf & -> & Hp & _).
      apply pair_equal_spec in H as [_ <-]. now repeat split.
    + left. unfold _reload_if_needed in H. rewrite Hfs, Hst in H.
      apply pair_equal_spec in H as [_ <-]. now split.
  - intros H. rewrite (reload_absent force fs self Hfs) in H. discriminate.
Qed.

Lemma reload_used force fs self :
  _used (snd (_reload_if_needed force fs self)) = _used self.
Proof.
  destruct (_reload_if_needed force fs self) as [[[]|e] self'] eqn:E.
  - apply reload_returns in E as (m & _ & [[_ ->] | (_ & _ & _ & ->)]); reflexivity.
  - apply reload_raises in E as [-> _]. reflexivity.
Qed.

Lemma reloaded_consistent fs m self :
  parse_lines (read_lines fs) <> [] -> consistent (reloaded fs m self).
Proof.
  intros H. unfold consistent, reloaded. cbn [_questions _id_map _mtime].
  split; [exact H|]. split; [apply parse_lines_good|]. split; [reflexivity | discriminate].
Qed.

Lemma reload_consistent force fs self self' :
  _reload_if_needed force fs self = (Return tt, self') ->
  consistent self -> consistent self'.
Proof.
  intros H Hc. apply reload_returns in H as (m & _ & [[_ ->] | (_ & _ & Hp & ->)]).
  - exact Hc.
  - now apply reloaded_consistent.
Qed.

Lemma same_store_consistent a b : same_store a b -> consistent b -> consistent a.
Proof.
  intros (Hq & Hi & Hm) (H1 & H2 & H3 & H4). unfold consistent.
  rewrite Hq, Hi, Hm. now repeat split.
Qed.

(** A call leaves the store as the reload check of the call left it. *)
Lemma perform_store fs c self :
  exists force,
    same_store (snd (perform fs c self)) (snd (_reload_if_needed force fs self))
    \/ same_store (snd (perform fs c self)) self.
Proof.
  destruct c as [| | choice | question_id user_answer | |]; cbn [perform]; unfold lift.
  - exists false. left. unfold load_questions, bind.
    destruct (_reload_if_needed false fs self) as [[[]|e] self']; now repeat split.
  - exists true. left. unfold force_reload.
    destruct (_reload_if_needed true fs self) as [[[]|e] self']; now repeat split.
  - exists false. left. rewrite get_random_question_cases.
    destruct (_reload_if_needed false fs self) as [[[]|e] self']; [|now repeat split].
    destruct (List.filter (unused self') (_questions self')); now repeat split.
  - exists false. left. unfold validate_answer, bind.
    destruct (_reload_if_needed false fs self) as [[[]|e] self']; [|now repeat split].
    destruct (_id_map self' !! question_id); [|now repeat split].
    destruct user_answer; now repeat split.
  - exists false. right. now repeat split.
  - exists false. right. now repeat split.
Qed.

Lemma perform_consistent fs c self :
  consistent self -> consistent (snd (perform fs c self)).
Proof.
  intros Hc. destruct (perform_store fs c self) as (force & [Hs | Hs]).
  - apply (same_store_consistent _ _ Hs).
    destruct (_reload_if_needed force fs self) as [[[]|e] self'] eqn:E.
    + now apply (reload_consistent force fs self self' E).
    + apply reload_raises in E as [-> _]. exact Hc.
  - now apply (same_store_consistent _ _ Hs).
Qed.

Lemma run_cons fs c calls self :
  run ((fs, c) :: calls) self =
  (fst (perform fs c self) :: fst (run calls (snd (perform fs c self))),
   snd (run calls (snd (perform fs c self)))).
Proof.
  cbn [run]. destruct (perform fs c self) as [r self']. cbn [fst snd].
  destruct (run calls self') as [rs self'']. reflexivity.
Qed.

Lemma run_consistent calls : forall self,
  consistent self -> consistent (snd (run calls self)).
Proof.
  induction calls as [|[fs c] calls IH]; intros self Hc; [exact Hc|].
  rewrite run_cons. cbn [snd]. now apply IH, perform_consistent.
Qed.

Lemma init_returns fs self :
  __init__ fs = Return self ->
  exists m, getmtime fs = Some m /\ isfile fs = true
    /\ parse_lines (read_lines fs) <> [] /\ self = reloaded fs m blank.
Proof.
  unfold __init__.
  destruct (_reload_if_needed true fs blank) as [[[]|e] self'] eqn:E; [|discriminate].
  intros [= <-]. apply reload_returns in E as (m & Hfs & [[Hst _] | (_ & Hf & Hp & ->)]).
  - discriminate.
  - now exists m.
Qed.

Lemma consistent_lookup self i :
  consistent self ->
  (is_Some (_id_map self !! i) <-> exists rec, In rec (_questions self) /\ q_id rec = i)
  /\ (forall rec, _id_map self !! i = Some rec -> In rec (_questions self) /\ q_id rec = i).
Proof.
  intros (_ & _ & Hmap & _). rewrite Hmap, build_id_map_lookup.
  set (same := List.filter (fun r => bool_decide (q_id r = i)) (_questions self)).
  assert (Hin : forall rec, In rec same <-> In rec (_questions self) /\ q_id rec = i).
  { intros rec. unfold same. rewrite List.filter_In, bool_decide_eq_true. reflexivity. }
  split; [split|].
  - intros [rec Hrec]. exists rec. apply Hin.
    apply last_Some_elem_of in Hrec. now apply list_elem_of_In.
  - intros (rec & Hrec). apply Hin in Hrec. apply last_is_Some.
    intros Hnil. rewrite Hnil in Hrec. destruct Hrec.
  - intros rec Hrec. apply Hin. apply last_Some_elem_of in Hrec. now apply list_elem_of_In.
Qed.

End Reached.

(** X1: whatever is called on a constructed manager, and whatever happens
    to the file in between, the manager holds at least one record, every
    record is as the loader makes them (non-empty trimmed question and
    answer, no delimiter in the question, the id of its question), and the
    mapping is the one built from the sequence: its keys are the ids of the
    records, and a key leads to a record of the sequence with that id. *)
Theorem reached_managers_are_consistent {U : Unicode} fs0 self0 calls :
  __init__ fs0 = Return self0 ->
  consistent (snd (run calls self0))
  /\ forall i,
       (is_Some (_id_map (snd (run calls self0)) !! i)
        <-> exists rec, In rec (_questions (snd (run calls self0))) /\ q_id rec = i)
       /\ (forall rec, _id_map (snd (run calls self0)) !! i = Some rec ->
             In rec (_questions (snd (run calls self0))) /\ q_id rec = i).
Proof.
  intros H. apply init_returns in H as (m & _ & _ & Hp & ->).
  assert (Hc : consistent (snd (run calls (reloaded fs0 m blank))))
    by now apply run_consistent, reloaded_consistent.
  split; [exact Hc|]. intros i. now apply consistent_lookup.
Qed.

Lemma reached_managers_are_consistent_witness :
  @consistent ascii_unicode
    (snd (@run ascii_unicode
            [ (sample_file, GetRandomQuestion 3); (Absent, LoadQuestions);
              (duplicate_file, ValidateAnswer (lit "0123") None);
              (sample_file, ClearCache); (duplicate_file, ForceReload) ]
            (loaded sample_file))).
Proof.
  apply (@reached_managers_are_consistent ascii_unicode sample_file (loaded sample_file)).
  reflexivity.
Defined.

(** * What calls do to the used set, and what they raise *)

Section Effects.
Context {U : Unicode}.

Lemma load_questions_state fs self :
  snd (load_questions fs self) = snd (_reload_if_needed false fs self).
Proof.
  unfold load_questions, bind.
  now destruct (_reload_if_needed false fs self) as [[[]|e] self'].
Qed.

Lemma validate_answer_state fs question_id user_answer self :
  snd (validate_answer fs question_id user_answer self)
  = snd (_reload_if_needed false fs self).
Proof.
  unfold validate_answer, bind.
  destruct (_reload_if_needed false fs self) as [[[]|e] self']; [|reflexivity].
  destruct (_id_map self' !! question_id); [|reflexivity].
  now destruct user_answer.
Qed.

Lemma lift_fst {A} (f : A -> returned) (m : M A) self :
  fst (lift f m self) =
  match fst (m self) with Return a => Return (f a) | Raise e => Raise e end.
Proof. unfold lift. now destruct (m self) as [[a|e] self']. Qed.

Lemma lift_snd {A} (f : A -> returned) (m : M A) self :
  snd (lift f m self) = snd (m self).
Proof. unfold lift. now destruct (m self) as [[a|e] self']. Qed.

(** What a call other than [clear_cache] does to the used set. *)
Lemma perform_used fs c self :
  is_clear c = false ->
  match dispensed_id (fst (perform fs c self)) with
  | Some i => (i ∉ _used self) /\ _used (snd (perform fs c self)) = {[ i ]} ∪ _used self
  | None => _used (snd (perform fs c self)) = _used self
  end.
Proof.
  destruct c as [| | choice | question_id user_answer | |]; cbn [perform is_clear];
    [| | | | discriminate |]; intros _; rewrite lift_fst, lift_snd.
  - rewrite load_questions_state, reload_used.
    now destruct (fst (load_questions fs self)).
  - unfold force_reload. rewrite reload_used.
    now destruct (fst (_reload_if_needed true fs self)).
  - rewrite get_random_question_cases.
    pose proof (reload_used false fs self) as Hu.
    destruct (_reload_if_needed false fs self) as [[[]|e] self']; cbn [fst snd] in *;
      [|exact Hu].
    destruct (List.filter (unused self') (_questions self')) as [|first rest] eqn:Ef;
      cbn [fst snd]; [exact Hu|].
    set (chosen := nth _ _ _).
    assert (Hin : In chosen (first :: rest)) by apply chosen_available.
    rewrite <- Ef in Hin. apply List.filter_In in Hin as [_ Hun].
    cbn [dispensed_id]. rewrite field_id. cbn [mark_used _used]. rewrite <- Hu.
    split; [|reflexivity]. intros Hused. apply unused_false in Hused. congruence.
  - rewrite validate_answer_state, reload_used.
    now destruct (fst (validate_answer fs question_id user_answer self)).
  - reflexivity.
Qed.

Lemma run_used calls : forall self,
  forallb (fun fc => negb (is_clear (snd fc))) calls = true ->
  List.NoDup (omap dispensed_id (fst (run calls self)))
  /\ (forall i, In i (omap dispensed_id (fst (run calls self))) -> i ∉ _used self)
  /\ _used (snd (run calls self))
     = list_to_set (omap dispensed_id (fst (run calls self))) ∪ _used self.
Proof.
  induction calls as [|[fs c] calls IH]; intros self Hno.
  - cbn [run fst snd].
    change (omap dispensed_id (@nil (outcome returned))) with (@nil str).
    split; [constructor|]. split; [intros i []|].
    rewrite list_to_set_nil. now rewrite (left_id_L ∅ (∪)).
  - cbn [forallb snd] in Hno. apply andb_true_iff in Hno as [Hc Hno].
    apply negb_true_iff in Hc.
    rewrite run_cons. cbn [fst snd].
    pose proof (perform_used fs c self Hc) as Hp.
    destruct (IH (snd (perform fs c self)) Hno) as (Hnd & Hfresh & Hused).
    set (r := fst (perform fs c self)) in *.
    set (self1 := snd (perform fs c self)) in *.
    set (rest := omap dispensed_id (fst (run calls self1))) in *.
    change (omap dispensed_id (r :: fst (run calls self1)))
      with (match dispensed_id r with Some i => i :: rest | None => rest end).
    destruct (dispensed_id r) as [i|].
    + destruct Hp as [Hi Hu1]. split; [|split].
      * constructor; [|exact Hnd]. intros Hin. apply (Hfresh i Hin).
        rewrite Hu1. apply elem_of_union_l. now apply elem_of_singleton.
      * intros j [<- | Hj]; [exact Hi|]. intros Hu. apply (Hfresh j Hj).
        rewrite Hu1. now apply elem_of_union_r.
      * rewrite Hused, Hu1, list_to_set_cons.
        rewrite (comm_L (∪) {[ i ]} (list_to_set rest)), <- (assoc_L (∪)).
        reflexivity.
    + split; [exact Hnd|]. split.
      * intros j Hj. rewrite <- Hp. now apply Hfresh.
      * now rewrite Hused, Hp.
Qed.

End Effects.

(** X2: as long as [clear_cache] is not called, no id is handed out twice,
    and none that was in the used set, whatever else is called and whatever
    becomes of the file between the calls; the used set ends as the one at
    the start with the ids handed out. *)
Theorem no_question_twice {U : Unicode} calls self :
  forallb (fun fc => negb (is_clear (snd fc))) calls = true ->
  List.NoDup (omap dispensed_id (fst (run calls self)))
  /\ (forall i, In i (omap dispensed_id (fst (run calls self))) -> i ∉ _used self)
  /\ _used (snd (run calls self))
     = list_to_set (omap dispensed_id (fst (run calls self))) ∪ _used self.
Proof. apply run_used. Qed.

Lemma no_question_twice_witness :
  List.NoDup
    (omap dispensed_id
       (fst (@run ascii_unicode
               [ (sample_file, GetRandomQuestion 0); (duplicate_file, GetRandomQuestion 1);
                 (Absent, GetRandomQuestion 0); (sample_file, GetRandomQuestion 2);
                 (sample_file, ForceReload); (sample_file, GetRandomQuestion 0) ]
               (loaded sample_file)))).
Proof.
  apply (@no_question_twice ascii_unicode
           [ (sample_file, GetRandomQuestion 0); (duplicate_file, GetRandomQuestion 1);
             (Absent, GetRandomQuestion 0); (sample_file, GetRandomQuestion 2);
             (sample_file, ForceReload); (sample_file, GetRandomQuestion 0) ]
           (loaded sample_file)).
  reflexivity.
Defined.

(** X3: after [clear_cache], [get_cache_size] returns the number of
    questions handed out since, whatever other calls were made, raised or
    reloaded in between. *)
Theorem cache_size_counts_dispensed {U : Unicode} calls self :
  forallb (fun fc => negb (is_clear (snd fc))) calls = true ->
  fst (get_cache_size (snd (run calls (snd (clear_cache self)))))
  = Return (length (omap dispensed_id (fst (run calls (snd (clear_cache self)))))).
Proof.
  intros Hno. destruct (run_used calls (snd (clear_cache self)) Hno) as (Hnd & _ & Hu).
  unfold get_cache_size. cbn [fst]. rewrite Hu. cbn [clear_cache snd _used].
  rewrite (right_id_L ∅ (∪)), size_list_to_set; [reflexivity|].
  now apply NoDup_ListNoDup.
Qed.

Lemma cache_size_counts_dispensed_witness :
  fst (get_cache_size
         (snd (@run ascii_unicode
                 [ (sample_file, GetRandomQuestion 4); (sample_file, LoadQuestions);
                   (sample_file, GetRandomQuestion 4); (sample_file, GetRandomQuestion 4) ]
                 (snd (clear_cache exhausted_sample)))))
  = Return 2%nat.
Proof.
  rewrite (@cache_size_counts_dispensed ascii_unicode
             [ (sample_file, GetRandomQuestion 4); (sample_file, LoadQuestions);
               (sample_file, GetRandomQuestion 4); (sample_file, GetRandomQuestion 4) ]
             exhausted_sample) by reflexivity.
  vm_compute. reflexivity.
Defined.

(** X4: which call raises what, and what a raising call leaves behind.
    [clear_cache] and [get_cache_size] never raise.  [load_questions] and
    [force_reload] raise only what loading the path raises:
    [ResourceNotFound] where there is no regular file, [EmptyStore] for a
    file that is read to its end, and for a file that cannot be read the
    exception of [open()] or of the decoding.  [get_random_question] may
    also raise [Exhausted], and [validate_answer] [UnknownQuestion].  A
    raising call never changes the used set, and one that raises what
    loading raises leaves the whole manager as it was, cached records
    included. *)
Theorem raising_calls {U : Unicode} fs c self e :
  fst (perform fs c self) = Raise e ->
  match c with
  | ClearCache | GetCacheSize => False
  | LoadQuestions | ForceReload => loading fs = Raise e
  | GetRandomQuestion _ => loading fs = Raise e \/ e = Exhausted
  | ValidateAnswer _ _ => loading fs = Raise e \/ e = UnknownQuestion
  end
  /\ match fs with
     | Absent | NotRegular _ => loading fs = Raise ResourceNotFound
     | Regular _ _ => loading fs = Raise e -> e = EmptyStore
     | Failing _ (Undecodable msg) => loading fs = Raise (UnicodeDecodeError msg)
     | Failing _ (Unopenable msg) => loading fs = Raise (OSError msg)
     end
  /\ _used (snd (perform fs c self)) = _used self
  /\ (loading fs = Raise e -> snd (perform fs c self) = self).
Proof.
  intros H.
  assert (Hused : _used (snd (perform fs c self)) = _used self).
  { destruct (is_clear c) eqn:Hc; [destruct c; discriminate|].
    pose proof (perform_used fs c self Hc) as Hp. rewrite H in Hp. exact Hp. }
  assert (Hown : loading fs <> Raise Exhausted /\ loading fs <> Raise UnknownQuestion).
  { split; intros He; apply loading_raises in He as [He | [He | [err He]]];
      try discriminate He; symmetry in He; now apply raised_by_not_own in He. }
  split; [|split; [|split; [exact Hused|]]].
  - destruct c as [| | choice | question_id user_answer | |]; cbn [perform] in *;
      rewrite ?lift_fst, ?lift_snd in *.
    + unfold load_questions, bind in H.
      destruct (_reload_if_needed false fs self) as [[[]|e0] self'] eqn:E; [discriminate|].
      cbn [fst] in H. injection H as <-. now apply reload_raises_loading in E as [_ ?].
    + unfold force_reload in H.
      destruct (_reload_if_needed true fs self) as [[[]|e0] self'] eqn:E; [discriminate|].
      cbn [fst] in H. injection H as <-. now apply reload_raises_loading in E as [_ ?].
    + rewrite get_random_question_cases in H.
      destruct (_reload_if_needed false fs self) as [[[]|e0] self'] eqn:E.
      * destruct (List.filter (unused self') (_questions self')); [|discriminate].
        cbn [fst] in H. injection H as <-. now right.
      * cbn [fst] in H. injection H as <-. left.
        now apply reload_raises_loading in E as [_ ?].
    + unfold validate_answer, bind in H.
      destruct (_reload_if_needed false fs self) as [[[]|e0] self'] eqn:E.
      * destruct (_id_map self' !! question_id).
        -- now destruct user_answer.
        -- cbn [fst] in H. injection H as <-. now right.
      * cbn [fst] in H. injection H as <-. left.
        now apply reload_raises_loading in E as [_ ?].
    + discriminate.
    + discriminate.
  - destruct fs as [|mt|mt lines|mt [msg|msg]]; cbn [loading raised_by]; try reflexivity.
    destruct (nonempty _); [discriminate|]. now intros [= <-].
  - intros He.
    destruct c as [| | choice | question_id user_answer | |]; cbn [perform] in *;
      rewrite ?lift_fst, ?lift_snd in *.
    + rewrite load_questions_state. unfold load_questions, bind in H.
      destruct (_reload_if_needed false fs self) as [[[]|e0] self'] eqn:E; [discriminate|].
      now apply reload_raises in E as [-> _].
    + unfold force_reload in *.
      destruct (_reload_if_needed true fs self) as [[[]|e0] self'] eqn:E; [discriminate|].
      now apply reload_raises in E as [-> _].
    + rewrite get_random_question_cases in *.
      destruct (_reload_if_needed false fs self) as [[[]|e0] self'] eqn:E.
      * destruct (List.filter (unused self') (_questions self')); [|discriminate].
        cbn [fst] in H. injection H as <-. now destruct Hown.
      * now apply reload_raises in E as [-> _].
    + rewrite validate_answer_state. unfold validate_answer, bind in H.
      destruct (_reload_if_needed false fs self) as [[[]|e0] self'] eqn:E.
      * destruct (_id_map self' !! question_id).
        -- now destruct user_answer.
        -- cbn [fst] in H. injection H as <-. now destruct Hown.
      * now apply reload_raises in E as [-> _].
    + discriminate.
    + discriminate.
Qed.

Lemma raising_calls_witness :
  @loading ascii_unicode (Failing 9 (Undecodable "invalid start byte"))
  = Raise (UnicodeDecodeError "invalid start byte")
  /\ snd (@perform ascii_unicode (Failing 9 (Undecodable "invalid start byte"))
            (ValidateAnswer (lit "0123") (Some (lit "x"))) exhausted_sample)
     = exhausted_sample.
Proof.
  destruct (@raising_calls ascii_unicode (Failing 9 (Undecodable "invalid start byte"))
              (ValidateAnswer (lit "0123") (Some (lit "x"))) exhausted_sample
              (UnicodeDecodeError "invalid start byte"))
    as (_ & Hl & _ & Hs).
  - vm_compute. reflexivity.
  - split; [exact Hl | apply Hs; exact Hl].
Defined.

(** * Draws, stale data and forced reloads *)

Section Draws.
Context {U : Unicode}.

Lemma reload_records_mtime fs self self' :
  _reload_if_needed false fs self = (Return tt, self') -> _mtime self' = getmtime fs.
Proof.
  intros H. apply reload_returns in H as (m & Hfs & [[Hst ->] | (_ & _ & _ & ->)]).
  - unfold stale in Hst. cbn [orb] in Hst. destruct (_mtime self) as [m0|]; [|discriminate].
    apply negb_false_iff, Z.eqb_eq in Hst. now rewrite Hfs, Hst.
  - now rewrite Hfs.
Qed.

Lemma stale_differs self fs m :
  getmtime fs = Some m -> _mtime self <> getmtime fs -> stale false (_mtime self) m = true.
Proof.
  intros Hfs Hne. rewrite Hfs in Hne.
  destruct (_mtime self) as [m0|] eqn:Em; [|reflexivity].
  apply stale_changed. congruence.
Qed.

End Draws.

(** X5: with the recorded modification time, the questions that
    [get_random_question] can return are exactly the loaded records whose id
    is not in the used set: each of them is returned for some draw, and
    whatever is returned is one of them, marked used. *)
Theorem every_unused_question_can_be_drawn {U : Unicode} fs m self :
  getmtime fs = Some m -> _mtime self = Some m ->
  (forall rec, In rec (_questions self) -> q_id rec ∉ _used self ->
     exists choice,
       get_random_question fs choice self = (Return (question_dict rec), mark_used rec self))
  /\ (forall choice q self',
        get_random_question fs choice self = (Return q, self') ->
        exists rec, In rec (_questions self) /\ (q_id rec ∉ _used self)
                    /\ q = question_dict rec /\ self' = mark_used rec self).
Proof.
  intros Hfs Hm. split.
  - intros rec Hin Hun.
    assert (Hav : In rec (List.filter (unused self) (_questions self))).
    { apply List.filter_In. split; [exact Hin|].
      destruct (unused self rec) eqn:E; [reflexivity|]. now apply unused_false in E. }
    destruct (List.filter (unused self) (_questions self)) as [|first rest] eqn:Ef;
      [destruct Hav|].
    destruct (In_nth _ _ first Hav) as (n & Hn & Hnth).
    exists n. rewrite (get_random_question_current fs m Hfs) by assumption.
    rewrite Ef. cbv zeta. rewrite Nat.mod_small by exact Hn. now rewrite Hnth.
  - intros choice q self'. rewrite (get_random_question_current fs m Hfs) by assumption.
    destruct (List.filter (unused self) (_questions self)) as [|first rest] eqn:Ef;
      [discriminate|].
    cbv zeta. set (chosen := nth _ _ _).
    assert (Hin : In chosen (first :: rest)) by apply chosen_available.
    rewrite <- Ef in Hin. apply List.filter_In in Hin as [Hin Hun].
    intros H. apply pair_equal_spec in H as [Hq <-].
    exists chosen. split; [exact Hin|]. split.
    + intros Hu. apply unused_false in Hu. congruence.
    + split; [congruence | reflexivity].
Qed.

Lemma every_unused_question_can_be_drawn_witness :
  exists choice,
    @get_random_question ascii_unicode sample_file choice (loaded sample_file)
    = (Return (@question_dict ascii_unicode
                 {| q_id := @_compute_id ascii_unicode (lit "How many legs has a spider?");
                    q_question := lit "How many legs has a spider?";
                    q_answer := lit "eight" |}),
       mark_used
         {| q_id := @_compute_id ascii_unicode (lit "How many legs has a spider?");
            q_question := lit "How many legs has a spider?";
            q_answer := lit "eight" |}
         (loaded sample_file)).
Proof.
  apply (proj1 (@every_unused_question_can_be_drawn ascii_unicode sample_file 5
                  (loaded sample_file) eq_refl eq_refl)).
  - vm_compute. tauto.
  - vm_compute. intros H. discriminate H.
Defined.

(** X6: when the modification time of the file is not the recorded one, a
    read answers from the file and not from the cache: [load_questions] and
    [validate_answer] return or raise what they would on a manager that has
    loaded nothing yet, and [get_random_question] what it would on such a
    manager with the same used set. *)
Theorem stale_reads_answer_from_the_file {U : Unicode} fs self :
  _mtime self <> getmtime fs ->
  fst (load_questions fs self) = fst (load_questions fs blank)
  /\ (forall question_id user_answer,
        fst (validate_answer fs question_id user_answer self)
        = fst (validate_answer fs question_id user_answer blank))
  /\ (forall choice,
        fst (get_random_question fs choice self)
        = fst (get_random_question fs choice
                 {| _used := _used self; _questions := []; _id_map := ∅; _mtime := None |})).
Proof.
  intros Hne. destruct (getmtime fs) as [m|] eqn:Hfs.
  - pose proof (stale_differs self fs m Hfs) as Hst. rewrite Hfs in Hst. specialize (Hst Hne).
    pose proof (reload_stale false fs m self Hfs Hst) as Hr.
    pose proof (reload_stale false fs m blank Hfs eq_refl) as Hb.
    pose proof (reload_stale false fs m
                  {| _used := _used self; _questions := []; _id_map := ∅; _mtime := None |}
                  Hfs eq_refl) as Hu.
    split; [|split]; intros.
    + unfold load_questions, bind. rewrite Hr, Hb.
      now destruct (loading fs).
    + unfold validate_answer, bind. rewrite Hr, Hb.
      destruct (loading fs); [|reflexivity].
      cbn [reloaded _id_map].
      destruct (build_id_map (parse_lines (read_lines fs)) !! question_id); [|reflexivity].
      now destruct user_answer.
    + rewrite !get_random_question_cases, Hr, Hu.
      destruct (loading fs); [|reflexivity].
      change (List.filter (unused (reloaded fs m self)) (_questions (reloaded fs m self)))
        with (List.filter
                (unused (reloaded fs m {| _used := _used self; _questions := [];
                                          _id_map := ∅; _mtime := None |}))
                (_questions (reloaded fs m {| _used := _used self; _questions := [];
                                              _id_map := ∅; _mtime := None |}))).
      now destruct (List.filter _ _).
  - split; [|split]; intros;
      unfold load_questions, validate_answer, get_random_question, bind;
      now rewrite !reload_absent.
Qed.

Lemma stale_reads_answer_from_the_file_witness :
  fst (@load_questions ascii_unicode duplicate_file (loaded sample_file))
  = fst (@load_questions ascii_unicode duplicate_file blank).
Proof.
  apply (@stale_reads_answer_from_the_file ascii_unicode duplicate_file (loaded sample_file)).
  vm_compute. discriminate.
Defined.

(** X7: a read looks at the content of the file only when its modification
    time is not the recorded one: two states of the path with the recorded
    time give every call but [force_reload] the same result and the same
    manager, whatever their content. *)
Theorem unchanged_mtime_serves_the_cache {U : Unicode} fs fs' m self c :
  getmtime fs = Some m -> getmtime fs' = Some m -> _mtime self = Some m ->
  c <> ForceReload ->
  perform fs c self = perform fs' c self.
Proof.
  intros Hfs Hfs' Hm Hc.
  pose proof (reload_current fs m self Hfs Hm) as Hr.
  pose proof (reload_current fs' m self Hfs' Hm) as Hr'.
  destruct c as [| | choice | question_id user_answer | |]; cbn [perform]; unfold lift.
  - unfold load_questions, bind. now rewrite Hr, Hr'.
  - congruence.
  - now rewrite !get_random_question_cases, Hr, Hr'.
  - unfold validate_answer, bind. now rewrite Hr, Hr'.
  - reflexivity.
  - reflexivity.
Qed.

Lemma unchanged_mtime_serves_the_cache_witness :
  @perform ascii_unicode (Regular 5 [lit "Capital of Italy? | Rome"]) LoadQuestions
    (loaded sample_file)
  = @perform ascii_unicode sample_file LoadQuestions (loaded sample_file).
Proof.
  apply (@unchanged_mtime_serves_the_cache ascii_unicode
           (Regular 5 [lit "Capital of Italy? | Rome"]) sample_file 5
           (loaded sample_file) LoadQuestions);
    reflexivity || discriminate.
Defined.

(** X8: [force_reload] does to the store what the constructor does,
    whatever the recorded modification time.  Where the constructor returns
    a manager, [force_reload] returns and leaves the records, the mapping
    and the time of that manager, with the used set it had; the reads that
    follow on the same file do not parse again, and [load_questions]
    returns the pairs of the file.  Where the constructor raises,
    [force_reload] raises the same and leaves the manager as it was. *)
Theorem force_reload_always_parses {U : Unicode} fs self :
  match __init__ fs with
  | Return fresh =>
      force_reload fs self =
        (Return tt,
         {| _used := _used self; _questions := _questions fresh;
            _id_map := _id_map fresh; _mtime := _mtime fresh |})
      /\ _used fresh = ∅
      /\ _mtime fresh = getmtime fs
      /\ _reload_if_needed false fs (snd (force_reload fs self))
         = (Return tt, snd (force_reload fs self))
      /\ fst (load_questions fs (snd (force_reload fs self)))
         = Return (map (fun rec => (q_question rec, q_answer rec)) (_questions fresh))
  | Raise e => force_reload fs self = (Raise e, self)
  end.
Proof.
  unfold __init__, force_reload. destruct (getmtime fs) as [m|] eqn:Hfs.
  - rewrite (reload_stale true fs m self Hfs eq_refl).
    rewrite (reload_stale true fs m blank Hfs eq_refl).
    destruct (loading fs); [|reflexivity].
    pose proof (reload_current fs m (reloaded fs m self) Hfs eq_refl) as Hc.
    split; [reflexivity|]. split; [reflexivity|]. split; [reflexivity|].
    split; [exact Hc|]. cbn [snd]. unfold load_questions, bind. now rewrite Hc.
  - now rewrite !(reload_absent true fs _ Hfs).
Qed.

Example force_reload_example :
  fst (@load_questions ascii_unicode (Regular 5 [lit "Capital of Italy? | Rome"])
         (snd (@force_reload ascii_unicode (Regular 5 [lit "Capital of Italy? | Rome"])
                 (loaded sample_file))))
  = Return [(lit "Capital of Italy?", lit "Rome")]
  /\ fst (@force_reload ascii_unicode (Failing 5 (Unopenable "Permission denied"))
            (loaded sample_file))
     = Raise (OSError "Permission denied").
Proof. compute_each. Qed.

Lemma init_cases {U : Unicode} fs :
  __init__ fs =
  match loading fs with
  | Raise e => Raise e
  | Return parsed =>
      Return {| _used := ∅; _questions := parsed;
                _id_map := build_id_map parsed; _mtime := getmtime fs |}
  end.
Proof.
  unfold __init__. destruct (getmtime fs) as [m|] eqn:Hfs.
  - rewrite (reload_stale true fs m blank Hfs eq_refl).
    destruct (loading fs) as [parsed|e] eqn:E; [|reflexivity].
    apply loading_returns in E as (_ & -> & _). reflexivity.
  - rewrite (reload_absent true fs blank Hfs). now destruct fs.
Qed.

(** X9: the constructor returns a manager exactly when the path holds a
    regular file that can be read and of which the contract accepts a line;
    the manager then has an empty used set, the records of the accepted
    lines in their order, the mapping built from them and the modification
    time of the file.  It raises [ResourceNotFound] exactly when there is
    no regular file at the path, [EmptyStore] exactly when the file is read
    and no line is accepted, and the exception of reading exactly when the
    file cannot be read. *)
Theorem init_outcomes {U : Unicode} (L : UnicodeLaws U) fs :
  ((exists self, __init__ fs = Return self)
   <-> exists mt lines, fs = Regular mt lines
         /\ exists raw rec, In raw lines /\ accepted raw rec)
  /\ (forall self, __init__ fs = Return self ->
        _used self = ∅
        /\ kept (read_lines fs) (_questions self)
        /\ _id_map self = build_id_map (_questions self)
        /\ _mtime self = getmtime fs)
  /\ (__init__ fs = Raise ResourceNotFound <-> isfile fs = false)
  /\ (__init__ fs = Raise EmptyStore
      <-> exists mt lines, fs = Regular mt lines
            /\ forall raw rec, In raw lines -> ~ accepted raw rec)
  /\ (forall err, __init__ fs = Raise (raised_by err) <-> exists mt, fs = Failing mt err).
Proof.
  assert (Hbar : isspace 124 = false) by apply bar_not_space.
  rewrite init_cases.
  destruct fs as [|mt|mt lines|mt err0]; cbn [loading isfile read_lines getmtime].
  - split; [split; [intros [? ?] | intros (? & ? & ? & _)]; discriminate|].
    split; [discriminate|]. split; [tauto|].
    split; [split; [|intros (? & ? & ? & _)]; discriminate|].
    intros err. split; [intros H; now destruct err | intros [? ?]; discriminate].
  - split; [split; [intros [? ?] | intros (? & ? & ? & _)]; discriminate|].
    split; [discriminate|]. split; [tauto|].
    split; [split; [|intros (? & ? & ? & _)]; discriminate|].
    intros err. split; [intros H; now destruct err | intros [? ?]; discriminate].
  - pose proof (parse_lines_nil lines Hbar) as Hnil.
    pose proof (proj2 (parse_lines_kept lines _ Hbar) eq_refl) as Hkept.
    destruct (parse_lines lines) as [|rec recs] eqn:E; cbn [nonempty].
    + split.
      { split; [intros [? ?]; discriminate|].
        intros (mt' & lines' & [= _ <-] & raw & rec & Hin & Ha).
        now destruct (proj1 Hnil eq_refl raw rec). }
      split; [discriminate|]. split; [split; discriminate|].
      split; [split; [intros _; exists mt, lines; split; [reflexivity | now apply Hnil]
                     | reflexivity]|].
      intros err. split; [intros H; now destruct err | intros [? ?]; discriminate].
    + split.
      { split; [intros _ | intros _; eexists; reflexivity].
        exists mt, lines. split; [reflexivity|].
        assert (Hrec : rec ∈ omap parse_line lines).
        { rewrite <- parse_lines_omap, E. apply list_elem_of_here. }
        apply list_elem_of_omap in Hrec as (raw & Hraw & Hp).
        exists raw, rec. split; [now apply list_elem_of_In|].
        now apply parse_line_accepted. }
      split; [intros self [= <-]; cbn [_used _questions _id_map _mtime]; now repeat split|].
      split; [split; discriminate|].
      split.
      { split; [discriminate|]. intros (mt' & lines' & [= _ <-] & Hn).
        apply Hnil in Hn. discriminate. }
      intros err. split; [discriminate | intros [? ?]; discriminate].
  - split; [split; [intros [? ?] | intros (? & ? & ? & _)]; discriminate|].
    split; [discriminate|].
    split; [split; [intros H; now destruct err0 | discriminate]|].
    split; [split; [intros H; now destruct err0 | intros (? & ? & ? & _); discriminate]|].
    intros err. split.
    + intros H. exists mt. destruct err0, err; cbn in H; congruence.
    + intros (mt' & [= _ <-]). reflexivity.
Qed.

Lemma init_outcomes_witness :
  exists self, @__init__ ascii_unicode sample_file = Return self.
Proof.
  apply (proj1 (init_outcomes ascii_unicode_laws sample_file)).
  exists 5%Z, (read_lines sample_file). split; [reflexivity|].
  exists (lit "Capital of France? | Paris"),
    {| q_id := @_compute_id ascii_unicode (lit "Capital of France?");
       q_question := lit "Capital of France?"; q_answer := lit "Paris" |}.
  split; [left; reflexivity|].
  apply (parse_line_accepted (U := ascii_unicode)); [reflexivity|].
  vm_compute. reflexivity.
Defined.

Lemma init_consistent {U : Unicode} fs self : __init__ fs = Return self -> consistent self.
Proof.
  intros H. apply init_returns in H as (m & _ & _ & Hp & ->).
  now apply reloaded_consistent.
Qed.

(** X10: a question handed out by a consistent manager can be validated:
    its id is a key of the mapping, so that, while the file keeps its
    modification time, [validate_answer] with that id returns and does not
    raise, and the stored answer of that id is accepted. *)
Theorem dispensed_question_can_be_validated {U : Unicode} fs choice self q self' i :
  consistent self ->
  get_random_question fs choice self = (Return q, self') ->
  field "id" q = Some (VStr i) ->
  exists rec,
    _id_map self' !! i = Some rec /\ q_id rec = i
    /\ (forall a,
          validate_answer fs i (Some a) self'
          = (Return (bool_decide (_normalize_answer (Some (q_answer rec))
                                  = _normalize_answer (Some a))), self'))
    /\ validate_answer fs i (Some (q_answer rec)) self' = (Return true, self')
    /\ validate_answer fs i None self' = (Return false, self').
Proof.
  intros Hc H Hi. rewrite get_random_question_cases in H.
  destruct (_reload_if_needed false fs self) as [[[]|e] self1] eqn:E; [|discriminate].
  pose proof (reload_consistent false fs self self1 E Hc) as Hc1.
  pose proof (reload_records_mtime fs self self1 E) as Hm1.
  destruct (List.filter (unused self1) (_questions self1)) as [|first rest] eqn:Ef;
    [discriminate|].
  cbv zeta in H. set (chosen := nth _ _ _) in H.
  assert (Hin : In chosen (first :: rest)) by apply chosen_available.
  rewrite <- Ef in Hin. apply List.filter_In in Hin as [Hin _].
  apply pair_equal_spec in H as [Hq <-].
  assert (Hq' : q = question_dict chosen) by congruence. subst q.
  rewrite field_id in Hi. assert (i = q_id chosen) by congruence. subst i.
  assert (Hc2 : consistent (mark_used chosen self1))
    by (apply (same_store_consistent _ self1); [now repeat split | exact Hc1]).
  destruct (consistent_lookup (mark_used chosen self1) (q_id chosen) Hc2) as [[_ Hsome] Hrec].
  destruct Hsome as [rec Hlook]; [now exists chosen|].
  destruct (Hrec rec Hlook) as [_ Hid].
  destruct (getmtime fs) as [m|] eqn:Hfs.
  2:{ rewrite (reload_absent false fs self Hfs) in E. discriminate. }
  assert (Hcur : _reload_if_needed false fs (mark_used chosen self1)
                 = (Return tt, mark_used chosen self1))
    by (apply (reload_current fs m); [exact Hfs | exact Hm1]).
  exists rec. split; [exact Hlook|]. split; [exact Hid|].
  unfold validate_answer, bind. rewrite Hcur, Hlook.
  split; [reflexivity|]. split; [|reflexivity].
  now rewrite bool_decide_eq_true_2.
Qed.

Lemma dispensed_question_can_be_validated_witness :
  exists rec,
    _id_map (snd (@get_random_question ascii_unicode sample_file 1 (loaded sample_file)))
      !! @_compute_id ascii_unicode (lit "How many legs has a spider?") = Some rec
    /\ @validate_answer ascii_unicode sample_file
         (@_compute_id ascii_unicode (lit "How many legs has a spider?"))
         (Some (q_answer rec))
         (snd (@get_random_question ascii_unicode sample_file 1 (loaded sample_file)))
       = (Return true,
          snd (@get_random_question ascii_unicode sample_file 1 (loaded sample_file))).
Proof.
  destruct (@dispensed_question_can_be_validated ascii_unicode sample_file 1
              (loaded sample_file) sample_question
              (snd (@get_random_question ascii_unicode sample_file 1 (loaded sample_file)))
              (@_compute_id ascii_unicode (lit "How many legs has a spider?")))
    as (rec & Hrec & _ & _ & Hok & _).
  - apply (@init_consistent ascii_unicode sample_file). reflexivity.
  - reflexivity.
  - vm_compute. reflexivity.
  - exists rec. now split.
Defined.

(** * More on the normalisation routine *)

Section Passes.
Context {U : Unicode} {L : UnicodeLaws U}.

Lemma number_word_not_number_word t : is_number_word (number_word t) = false.
Proof.
  destruct (is_number_word t) eqn:E.
  - apply existsb_exists in E as (wd & Hin & Ht). apply bool_decide_eq_true in Ht. subst t.
    assert (Hall : forallb (fun wd => negb (is_number_word (number_word (fst wd))))
                     NUMBER_WORDS = true) by (vm_compute; reflexivity).
    rewrite forallb_forall in Hall. now apply negb_true_iff, Hall.
  - now rewrite number_word_other.
Qed.

Lemma number_word_idem t : number_word (number_word t) = number_word t.
Proof. apply number_word_other, number_word_not_number_word. Qed.

Lemma map_number_word_token ts : Forall token ts -> Forall token (map number_word ts).
Proof.
  intros H. apply List.Forall_forall. intros t Ht.
  apply List.in_map_iff in Ht as (t0 & <- & Ht).
  apply number_word_token. rewrite List.Forall_forall in H. now apply H.
Qed.

(** For ASCII text the routine sees the text only through its lowercase form. *)
Lemma normalize_ascii_lower a :
  forallb is_ascii a = true ->
  _normalize_answer (Some a)
  = strip (sub_spaces false (sub_punct (sub_number_words (map ascii_lower a)))).
Proof.
  intros H. unfold _normalize_answer. rewrite nfkd_ascii by assumption.
  rewrite filter_all.
  - now rewrite lower_ascii.
  - rewrite forallb_forall in H. apply List.Forall_forall. intros c Hc.
    rewrite combining_ascii by now apply H. reflexivity.
Qed.

End Passes.

(** X11: a second pass of the routine over its own output replaces the
    tokens that are number words by their digits and changes nothing
    else. *)
Theorem second_pass_replaces_number_words {U : Unicode} (L : UnicodeLaws U) (x : option str) :
  _normalize_answer (Some (_normalize_answer x))
  = join [32] (map number_word (split (_normalize_answer x))).
Proof.
  destruct (normalize_answer_tokens x) as (ts & Hts & ->).
  rewrite normalize_join by assumption. now rewrite split_join.
Qed.

Lemma second_pass_replaces_number_words_witness :
  @_normalize_answer ascii_unicode (Some (@_normalize_answer ascii_unicode (Some (lit "fi-ve o'clock"))))
  = join [32] (map number_word
                 (@split ascii_unicode (@_normalize_answer ascii_unicode (Some (lit "fi-ve o'clock"))))).
Proof.
  exact (second_pass_replaces_number_words ascii_unicode_laws (Some (lit "fi-ve o'clock"))).
Defined.

(** X12: the routine settles after two passes: a third pass changes
    nothing, for every input. *)
Theorem third_pass_changes_nothing {U : Unicode} (L : UnicodeLaws U) (x : option str) :
  _normalize_answer (Some (_normalize_answer (Some (_normalize_answer x))))
  = _normalize_answer (Some (_normalize_answer x)).
Proof.
  destruct (normalize_answer_tokens x) as (ts & Hts & ->).
  rewrite normalize_join by assumption.
  rewrite normalize_join by now apply map_number_word_token.
  rewrite map_map. f_equal. apply map_ext. intros t. apply number_word_idem.
Qed.

Lemma third_pass_changes_nothing_witness :
  @_normalize_answer ascii_unicode
    (Some (@_normalize_answer ascii_unicode
             (Some (@_normalize_answer ascii_unicode (Some (lit "se-ven"))))))
  = @_normalize_answer ascii_unicode
      (Some (@_normalize_answer ascii_unicode (Some (lit "se-ven")))).
Proof. exact (third_pass_changes_nothing ascii_unicode_laws (Some (lit "se-ven"))). Defined.

(** X13: ASCII letter case never matters to [validate_answer]: two ASCII
    answers with the same lowercase form get the same result. *)
Theorem validate_answer_ignores_ascii_case {U : Unicode} (L : UnicodeLaws U)
    fs question_id a b self :
  forallb is_ascii a = true -> forallb is_ascii b = true ->
  map ascii_lower a = map ascii_lower b ->
  _normalize_answer (Some a) = _normalize_answer (Some b)
  /\ validate_answer fs question_id (Some a) self
     = validate_answer fs question_id (Some b) self.
Proof.
  intros Ha Hb Hab.
  assert (Hn : _normalize_answer (Some a) = _normalize_answer (Some b))
    by (rewrite !normalize_ascii_lower by assumption; now rewrite Hab).
  split; [exact Hn|]. unfold validate_answer, bind.
  destruct (_reload_if_needed false fs self) as [[[]|e] self']; [|reflexivity].
  destruct (_id_map self' !! question_id); [|reflexivity].
  now rewrite Hn.
Qed.

Lemma validate_answer_ignores_ascii_case_witness :
  @validate_answer ascii_unicode sample_file
    (@_compute_id ascii_unicode (lit "How many legs has a spider?"))
    (Some (lit "EIGHT")) (loaded sample_file)
  = @validate_answer ascii_unicode sample_file
      (@_compute_id ascii_unicode (lit "How many legs has a spider?"))
      (Some (lit "Eight")) (loaded sample_file).
Proof.
  apply (validate_answer_ignores_ascii_case ascii_unicode_laws); reflexivity.
Defined.

(** * Whitespace around an answer *)

Section Surrounding.
Context {U : Unicode} {L : UnicodeLaws U}.

Lemma ascii_space_facts c :
  ascii_isspace c = true ->
  is_ascii c = true /\ isspace c = true /\ is_word c = false /\ ascii_lower c = c.
Proof.
  intros H. assert (Hc : c <= 32) by chars.
  assert (Ha : is_ascii c = true) by (apply N.ltb_lt; lia).
  assert (H48 : (48 <=? c) = false) by (apply N.leb_gt; lia).
  assert (H97 : (97 <=? c) = false) by (apply N.leb_gt; lia).
  assert (H65 : (65 <=? c) = false) by (apply N.leb_gt; lia).
  assert (H95 : (c =? 95) = false) by (apply N.eqb_neq; lia).
  split; [exact Ha|]. split; [now rewrite isspace_ascii|]. split.
  - unfold is_word. rewrite isalnum_ascii by exact Ha.
    unfold ascii_isalnum, is_digit, is_az, is_AZ. now rewrite H48, H97, H65, H95.
  - unfold ascii_lower, is_AZ. now rewrite H65.
Qed.

Lemma sub_scan_prev w d p p' s :
  word_at p = word_at p' -> sub_scan w d 0 p s = sub_scan w d 0 p' s.
Proof.
  intros H. destruct s as [|c s]; [reflexivity|].
  cbn [sub_scan]. unfold matches_at, boundary. now rewrite H.
Qed.

Lemma sub_scan_leading w d ws : forall p x,
  w <> [] -> word_chars w -> Forall (fun c => is_word c = false) ws ->
  sub_scan w d 0 p (ws ++ x)
  = ws ++ sub_scan w d 0 (match last ws with Some c => Some c | None => p end) x.
Proof.
  induction ws as [|c ws IH]; intros p x Hne Hw Hws; [reflexivity|].
  apply List.Forall_cons_iff in Hws as [Hc Hws].
  change ((c :: ws) ++ x) with (c :: (ws ++ x)).
  rewrite sub_scan_nonword by (assumption || exact Hc).
  cbn [tail_scan]. rewrite IH by assumption. rewrite last_cons.
  now destruct (last ws).
Qed.

Lemma tail_match w : forall y lst ws,
  word_chars w -> Forall (fun c => is_word c = false) ws ->
  starts_with w (y ++ ws) && boundary lst (head (drop (length w) (y ++ ws)))
  = starts_with w y && boundary lst (head (drop (length w) y)).
Proof.
  induction w as [|a w IH]; intros y lst ws Hw Hws.
  - cbn [starts_with length andb]. rewrite !drop_0. destruct y as [|b y]; [|reflexivity].
    cbn [app head]. unfold boundary. f_equal.
    destruct ws as [|c ws]; [reflexivity|]. now apply List.Forall_inv in Hws.
  - apply List.Forall_cons_iff in Hw as [Ha Hw]. destruct y as [|b y].
    + cbn [app]. destruct ws as [|c ws]; [reflexivity|].
      apply List.Forall_inv in Hws. cbn [starts_with].
      destruct (N.eqb_spec a c) as [->|]; [congruence | reflexivity].
    + change (starts_with (a :: w) ((b :: y) ++ ws))
        with ((a =? b) && starts_with w (y ++ ws)).
      change (starts_with (a :: w) (b :: y)) with ((a =? b) && starts_with w y).
      change (drop (length (a :: w)) ((b :: y) ++ ws)) with (drop (length w) (y ++ ws)).
      change (drop (length (a :: w)) (b :: y)) with (drop (length w) y).
      rewrite <- !andb_assoc. f_equal. now apply IH.
Qed.

Lemma matches_at_trailing w p y ws :
  word_chars w -> Forall (fun c => is_word c = false) ws -> y <> [] ->
  matches_at w p (y ++ ws) = matches_at w p y.
Proof.
  intros Hw Hws Hy. unfold matches_at. rewrite <- !andb_assoc.
  rewrite tail_match by assumption. now destruct y.
Qed.

Lemma starts_with_length w : forall y, starts_with w y = true -> (length w <= length y)%nat.
Proof.
  induction w as [|a w IH]; intros y H; [simpl; lia|].
  destruct y as [|b y]; [discriminate|]. cbn [starts_with] in H.
  apply andb_true_iff in H as [_ H]. apply IH in H. simpl. lia.
Qed.

Lemma sub_scan_trailing w d ws x : forall k p,
  w <> [] -> word_chars w -> Forall (fun c => is_word c = false) ws ->
  (k <= length x)%nat ->
  sub_scan w d k p (x ++ ws) = sub_scan w d k p x ++ ws.
Proof.
  induction x as [|c x IH]; intros k p Hne Hw Hws Hk.
  - assert (k = 0)%nat by (simpl in Hk; lia). subst k.
    pose proof (sub_scan_leading w d ws p [] Hne Hw Hws) as E.
    rewrite app_nil_r in E. cbn [app sub_scan] in *. rewrite E. apply app_nil_r.
  - change ((c :: x) ++ ws) with (c :: (x ++ ws)). destruct k as [|k].
    + change (sub_scan w d 0 p (c :: (x ++ ws))) with
        (if matches_at w p ((c :: x) ++ ws)
         then d ++ sub_scan w d (length w - 1) (Some c) (x ++ ws)
         else c :: sub_scan w d 0 (Some c) (x ++ ws)).
      change (sub_scan w d 0 p (c :: x)) with
        (if matches_at w p (c :: x)
         then d ++ sub_scan w d (length w - 1) (Some c) x
         else c :: sub_scan w d 0 (Some c) x).
      rewrite matches_at_trailing by (assumption || discriminate).
      destruct (matches_at w p (c :: x)) eqn:Em.
      * rewrite IH, <- app_assoc; [reflexivity | assumption..|].
        unfold matches_at in Em. apply andb_true_iff in Em as [Em _].
        apply andb_true_iff in Em as [_ Em]. apply starts_with_length in Em.
        simpl in Em. lia.
      * rewrite IH by (assumption || lia). reflexivity.
    + cbn [sub_scan]. apply IH; try assumption. simpl in Hk. lia.
Qed.

Lemma sub_word_surrounded w d ws1 x ws2 :
  w <> [] -> word_chars w ->
  Forall (fun c => is_word c = false) ws1 -> Forall (fun c => is_word c = false) ws2 ->
  sub_word w d (ws1 ++ x ++ ws2) = ws1 ++ sub_word w d x ++ ws2.
Proof.
  intros Hne Hw H1 H2. unfold sub_word.
  rewrite sub_scan_leading by assumption. f_equal.
  rewrite sub_scan_trailing by (assumption || lia). f_equal.
  apply sub_scan_prev. destruct (last ws1) as [c|] eqn:El; [|reflexivity].
  apply last_Some_elem_of, list_elem_of_In in El.
  rewrite List.Forall_forall in H1. cbn [word_at]. now apply H1.
Qed.

Lemma sub_words_surrounded (tbl : list (str * str)) ws1 ws2 : forall x,
  Forall (fun wd => token (fst wd) /\ token (snd wd)) tbl ->
  Forall (fun c => is_word c = false) ws1 -> Forall (fun c => is_word c = false) ws2 ->
  fold_left (fun s wd => sub_word (fst wd) (snd wd) s) tbl (ws1 ++ x ++ ws2)
  = ws1 ++ fold_left (fun s wd => sub_word (fst wd) (snd wd) s) tbl x ++ ws2.
Proof.
  induction tbl as [|[w d] tbl IH]; intros x Htbl H1 H2; [reflexivity|].
  apply List.Forall_cons_iff in Htbl as [[Hw _] Htbl]. cbn [fst snd] in Hw.
  cbn [fold_left fst snd].
  rewrite sub_word_surrounded;
    [now apply IH | now destruct Hw | now apply token_word_chars | assumption..].
Qed.

Lemma split_leading ws x : Forall (fun c => isspace c = true) ws -> split (ws ++ x) = split x.
Proof.
  induction ws as [|c ws IH]; intros H; [reflexivity|].
  apply List.Forall_cons_iff in H as [Hc Hws].
  change ((c :: ws) ++ x) with (c :: (ws ++ x)). rewrite split_cons, Hc. now apply IH.
Qed.

Lemma split_trailing ws x : Forall (fun c => isspace c = true) ws -> split (x ++ ws) = split x.
Proof.
  intros H. induction x as [|c x IH].
  - cbn [app]. rewrite <- (app_nil_r ws). now rewrite split_leading.
  - change ((c :: x) ++ ws) with (c :: (x ++ ws)). rewrite !split_cons, IH.
    replace (token_follows (x ++ ws)) with (token_follows x); [reflexivity|].
    destruct x as [|b x]; [|reflexivity]. cbn [app]. unfold token_follows.
    destruct ws as [|e ws]; [reflexivity|]. apply List.Forall_inv in H. now rewrite H.
Qed.

End Surrounding.

(** X14: ASCII whitespace before and after an ASCII answer never matters:
    the routine gives the answer and the answer with whitespace around it
    the same normal form, so [validate_answer] gives them the same
    result. *)
Theorem validate_answer_ignores_surrounding_whitespace {U : Unicode} (L : UnicodeLaws U)
    fs question_id ws1 a ws2 self :
  forallb ascii_isspace ws1 = true -> forallb is_ascii a = true ->
  forallb ascii_isspace ws2 = true ->
  _normalize_answer (Some (ws1 ++ a ++ ws2)) = _normalize_answer (Some a)
  /\ validate_answer fs question_id (Some (ws1 ++ a ++ ws2)) self
     = validate_answer fs question_id (Some a) self.
Proof.
  intros H1 Ha H2.
  assert (Hf : forall ws, forallb ascii_isspace ws = true ->
             forallb is_ascii ws = true
             /\ Forall (fun c => isspace c = true) ws
             /\ Forall (fun c => is_word c = false) ws
             /\ map ascii_lower ws = ws).
  { intros ws Hws. rewrite forallb_forall in Hws. split; [|split; [|split]].
    - apply forallb_forall. intros c Hc. now apply (ascii_space_facts c), Hws.
    - apply List.Forall_forall. intros c Hc. now apply (ascii_space_facts c), Hws.
    - apply List.Forall_forall. intros c Hc. now apply (ascii_space_facts c), Hws.
    - rewrite <- (map_id ws) at 2. apply map_ext_in. intros c Hc.
      now apply (ascii_space_facts c), Hws. }
  destruct (Hf ws1 H1) as (Ha1 & Hs1 & Hw1 & Hl1).
  destruct (Hf ws2 H2) as (Ha2 & Hs2 & Hw2 & Hl2).
  assert (Hn : _normalize_answer (Some (ws1 ++ a ++ ws2)) = _normalize_answer (Some a)).
  { rewrite !normalize_ascii_lower
      by (rewrite ?forallb_app, ?Ha1, ?Ha, ?Ha2; reflexivity).
    rewrite !map_app, Hl1, Hl2. unfold sub_number_words.
    rewrite (sub_words_surrounded NUMBER_WORDS) by (apply NUMBER_WORDS_tokens || assumption).
    unfold sub_punct. rewrite !List.filter_app.
    rewrite (filter_all keep ws1), (filter_all keep ws2).
    - rewrite !strip_sub_spaces by apply space_isspace.
      now rewrite split_leading, split_trailing.
    - eapply List.Forall_impl; [|exact Hs2]. intros c Hc. unfold keep. rewrite Hc.
      apply orb_true_r.
    - eapply List.Forall_impl; [|exact Hs1]. intros c Hc. unfold keep. rewrite Hc.
      apply orb_true_r. }
  split; [exact Hn|]. unfold validate_answer, bind.
  destruct (_reload_if_needed false fs self) as [[[]|e] self']; [|reflexivity].
  destruct (_id_map self' !! question_id); [|reflexivity].
  now rewrite Hn.
Qed.

Lemma validate_answer_ignores_surrounding_whitespace_witness :
  @_normalize_answer ascii_unicode (Some (lit "  " ++ lit "Paris" ++ [9; 10]))
  = @_normalize_answer ascii_unicode (Some (lit "Paris")).
Proof.
  apply (validate_answer_ignores_surrounding_whitespace ascii_unicode_laws
           Absent [] (lit "  ") (lit "Paris") [9; 10] blank); reflexivity.
Defined.

(** * The request handlers *)

Import App.

Section Responses.
Context {U : Unicode}.

Lemma loading_raises_class fs e :
  loading fs = Raise e ->
  e = ResourceNotFound \/ e = EmptyStore
  \/ (exists msg, e = UnicodeDecodeError msg) \/ (exists msg, e = OSError msg).
Proof.
  intros H. apply loading_raises in H as [-> | [-> | [[msg|msg] ->]]].
  - now left.
  - right. now left.
  - right. right. left. now exists msg.
  - right. right. right. now exists msg.
Qed.

(** The outcomes of [get_random_question]. *)
Lemma get_random_question_outcomes fs choice self :
  (exists rec, In rec (_questions (snd (get_random_question fs choice self)))
     /\ fst (get_random_question fs choice self) = Return (question_dict rec))
  \/ (exists e, fst (get_random_question fs choice self) = Raise e
        /\ loading fs = Raise e
        /\ snd (get_random_question fs choice self) = self)
  \/ (fst (get_random_question fs choice self) = Raise Exhausted
      /\ _used (snd (get_random_question fs choice self)) = _used self).
Proof.
  rewrite get_random_question_cases.
  pose proof (reload_used false fs self) as Hu.
  destruct (_reload_if_needed false fs self) as [[[]|e] self'] eqn:E.
  - destruct (List.filter (unused self') (_questions self')) as [|first rest] eqn:Ef.
    + right; right. now split.
    + left. cbv zeta. set (chosen := nth _ _ _).
      assert (Hin : In chosen (first :: rest)) by apply chosen_available.
      rewrite <- Ef in Hin. apply List.filter_In in Hin as [Hin _].
      exists chosen. now split.
  - apply reload_raises_loading in E as [-> He]. right; left. now exists e.
Qed.

(** The outcomes of [validate_answer]. *)
Lemma validate_answer_outcomes fs question_id user_answer self :
  (exists b, fst (validate_answer fs question_id user_answer self) = Return b)
  \/ (exists e, fst (validate_answer fs question_id user_answer self) = Raise e
        /\ loading fs = Raise e)
  \/ fst (validate_answer fs question_id user_answer self) = Raise UnknownQuestion.
Proof.
  unfold validate_answer, bind.
  destruct (_reload_if_needed false fs self) as [[[]|e] self'] eqn:E.
  - destruct (_id_map self' !! question_id).
    + left. destruct user_answer; eexists; reflexivity.
    + right; right. reflexivity.
  - apply reload_raises_loading in E as [_ He]. right; left. now exists e.
Qed.

End Responses.

(** X15: [api_get_question] answers 200, 404 or 500.  It answers 200
    exactly when the manager returns a question, and the body then has the
    keys [id], [question] and [words] and no other.  It answers 404 exactly
    when the manager raises a [ValueError]: [Exhausted], [EmptyStore], or
    the [UnicodeDecodeError] of a file that is not UTF-8.  It answers 500
    exactly when the manager raises [ResourceNotFound] or the [OSError] of
    a file that cannot be opened or read.  Unless it answers 200 the used
    set is as before. *)
Theorem api_get_question_responses {U : Unicode} file_path fs choice qm :
  let resp := fst (api_get_question file_path fs choice qm) in
  let r := fst (get_random_question fs choice qm) in
  (snd resp = 200 \/ snd resp = 404 \/ snd resp = 500)%nat
  /\ (snd resp = 200%nat <-> exists q, r = Return q)
  /\ (snd resp = 200%nat -> map fst (fst resp) = ["id"; "question"; "words"]%string)
  /\ (snd resp = 404%nat <-> exists e, r = Raise e /\ is_ValueError e = true)
  /\ (snd resp = 404%nat <->
      r = Raise Exhausted \/ r = Raise EmptyStore
      \/ exists msg, r = Raise (UnicodeDecodeError msg))
  /\ (snd resp = 500%nat <->
      r = Raise ResourceNotFound \/ exists msg, r = Raise (OSError msg))
  /\ (snd resp <> 200%nat ->
      _used (snd (api_get_question file_path fs choice qm)) = _used qm).
Proof.
  unfold api_get_question.
  destruct (get_random_question_outcomes fs choice qm)
    as [(rec & _ & Hr) | [(e & Hr & He & Hs) | [Hr Hs]]];
    destruct (get_random_question fs choice qm) as [r qm']; cbn [fst snd] in *; subst r.
  - cbn [fst snd]. split; [now left|].
    split; [split; [now exists (question_dict rec) | reflexivity]|].
    split; [reflexivity|].
    split; [split; [discriminate | intros (? & ? & _); discriminate]|].
    split; [split; [discriminate | intros [?|[?|[? ?]]]; discriminate]|].
    split; [split; [discriminate | intros [?|[? ?]]; discriminate]|].
    intros H. now elim H.
  - subst qm'.
    apply loading_raises_class in He as [-> | [-> | [[msg ->] | [msg ->]]]];
      cbn [fst snd EmptyStore Exhausted ResourceNotFound is_ValueError].
    + split; [now right; right|].
      split; [split; [discriminate | intros [? ?]; discriminate]|].
      split; [discriminate|].
      split; [split; [discriminate | intros (? & [= <-] & ?); discriminate]|].
      split; [split; [discriminate | intros [?|[?|[? ?]]]; discriminate]|].
      split; [split; [now left | reflexivity]|]. reflexivity.
    + split; [now right; left|].
      split; [split; [discriminate | intros [? ?]; discriminate]|].
      split; [discriminate|].
      split; [split; [intros _; now eexists | reflexivity]|].
      split; [split; [now right; left | reflexivity]|].
      split; [split; [discriminate | intros [?|[? ?]]; discriminate]|]. reflexivity.
    + split; [now right; left|].
      split; [split; [discriminate | intros [? ?]; discriminate]|].
      split; [discriminate|].
      split; [split; [intros _; now eexists | reflexivity]|].
      split; [split; [intros _; right; right; now exists msg | reflexivity]|].
      split; [split; [discriminate | intros [?|[? ?]]; discriminate]|]. reflexivity.
    + split; [now right; right|].
      split; [split; [discriminate | intros [? ?]; discriminate]|].
      split; [discriminate|].
      split; [split; [discriminate | intros (? & [= <-] & ?); discriminate]|].
      split; [split; [discriminate | intros [?|[?|[? ?]]]; discriminate]|].
      split; [split; [intros _; right; now exists msg | reflexivity]|]. reflexivity.
  - cbn [fst snd EmptyStore Exhausted ResourceNotFound is_ValueError].
    split; [now right; left|].
    split; [split; [discriminate | intros [? ?]; discriminate]|].
    split; [discriminate|].
    split; [split; [intros _; now eexists | reflexivity]|].
    split; [split; [now left | reflexivity]|].
    split; [split; [discriminate | intros [?|[? ?]]; discriminate]|].
    intros _. exact Hs.
Qed.

Lemma api_get_question_responses_witness :
  snd (fst (@api_get_question ascii_unicode (lit "/srv/questions.txt")
              (Failing 6 (Undecodable "invalid start byte")) 0 (loaded sample_file)))
  = 404%nat.
Proof.
  apply (proj1 (proj2 (proj2 (proj2 (proj2 (@api_get_question_responses ascii_unicode
           (lit "/srv/questions.txt") (Failing 6 (Undecodable "invalid start byte")) 0
           (loaded sample_file))))))).
  right. right. exists "invalid start byte"%string. vm_compute. reflexivity.
Defined.

(** X16: [api_validate] never changes the used set.  A body that cannot
    be read is answered 500, a false one 400, and an object without a usable
    [question_id] or [answer] 400, all without touching the manager.  With
    both fields it answers 200 and [correct] exactly when the manager
    returns; 400 exactly when the manager raises [UnknownQuestion] or a
    [ValueError], which is [EmptyStore] or the [UnicodeDecodeError] of a
    file that is not UTF-8; and 500 exactly when it raises
    [ResourceNotFound] or the [OSError] of a file that cannot be opened or
    read. *)
Theorem api_validate_responses {U : Unicode} file_path fs payload qm :
  _used (snd (api_validate file_path fs payload qm)) = _used qm
  /\ match payload with
     | Unreadable detail =>
         snd (fst (api_validate file_path fs payload qm)) = 500%nat
         /\ snd (api_validate file_path fs payload qm) = qm
     | Falsy | Object None _ | Object _ None =>
         snd (fst (api_validate file_path fs payload qm)) = 400%nat
         /\ snd (api_validate file_path fs payload qm) = qm
     | Object (Some i) (Some a) =>
         let resp := fst (api_validate file_path fs payload qm) in
         let r := fst (validate_answer fs i (Some a) qm) in
         (forall b, resp = ([("correct"%string, JBool b)], 200%nat) <-> r = Return b)
         /\ (snd resp = 200%nat <-> exists b, r = Return b)
         /\ (snd resp = 400%nat <->
             r = Raise UnknownQuestion \/ r = Raise EmptyStore
             \/ exists msg, r = Raise (UnicodeDecodeError msg))
         /\ (snd resp = 500%nat <->
             r = Raise ResourceNotFound \/ exists msg, r = Raise (OSError msg))
     end.
Proof.
  destruct payload as [detail | | [i|] [a|]]; cbn [api_validate];
    try (split; [reflexivity | split; reflexivity]).
  pose proof (validate_answer_state fs i (Some a) qm) as Hs.
  pose proof (reload_used false fs qm) as Hu.
  destruct (validate_answer_outcomes fs i (Some a) qm) as [[b Hr] | [(e & Hr & He) | Hr]];
    destruct (validate_answer fs i (Some a) qm) as [r qm']; cbn [fst snd] in *; subst r.
  - cbn [fst snd]. split; [congruence|].
    split; [intros b'; split; intros H; congruence|].
    split; [split; [now exists b | reflexivity]|].
    split; [split; [discriminate | intros [?|[?|[? ?]]]; discriminate]|].
    split; [discriminate | intros [?|[? ?]]; discriminate].
  - apply loading_raises_class in He as [-> | [-> | [[msg ->] | [msg ->]]]];
      cbn [fst snd EmptyStore UnknownQuestion ResourceNotFound];
      (split; [congruence|]).
    + split; [intros b'; split; discriminate|].
      split; [split; [discriminate | intros [? ?]; discriminate]|].
      split; [split; [discriminate | intros [?|[?|[? ?]]]; discriminate]|].
      split; [now left | reflexivity].
    + split; [intros b'; split; discriminate|].
      split; [split; [discriminate | intros [? ?]; discriminate]|].
      split; [split; [now right; left | reflexivity]|].
      split; [discriminate | intros [?|[? ?]]; discriminate].
    + split; [intros b'; split; discriminate|].
      split; [split; [discriminate | intros [? ?]; discriminate]|].
      split; [split; [intros _; right; right; now exists msg | reflexivity]|].
      split; [discriminate | intros [?|[? ?]]; discriminate].
    + split; [intros b'; split; discriminate|].
      split; [split; [discriminate | intros [? ?]; discriminate]|].
      split; [split; [discriminate | intros [?|[?|[? ?]]]; discriminate]|].
      split; [intros _; right; now exists msg | reflexivity].
  - cbn [fst snd EmptyStore UnknownQuestion ResourceNotFound]. split; [congruence|].
    split; [intros b'; split; discriminate|].
    split; [split; [discriminate | intros [? ?]; discriminate]|].
    split; [split; [now left | reflexivity]|].
    split; [discriminate | intros [?|[? ?]]; discriminate].
Qed.

Lemma api_validate_responses_witness :
  snd (fst (@api_validate ascii_unicode (lit "/srv/questions.txt")
              (Failing 6 (Undecodable "invalid start byte"))
              (Object (Some (lit "0123")) (Some (lit "Paris"))) (loaded sample_file)))
  = 400%nat.
Proof.
  apply (proj1 (proj2 (proj2 (proj2 (@api_validate_responses ascii_unicode
           (lit "/srv/questions.txt") (Failing 6 (Undecodable "invalid start byte"))
           (Object (Some (lit "0123")) (Some (lit "Paris"))) (loaded sample_file)))))).
  right. right. exists "invalid start byte"%string. vm_compute. reflexivity.
Defined.

Example api_responses_on_unreadable_files :
  let path := lit "/srv/questions.txt" in
  let undecodable := Failing 6 (Undecodable "invalid start byte") in
  let denied := Failing 6 (Unopenable "Permission denied") in
  let body := Object (Some (lit "0123")) (Some (lit "Paris")) in
  snd (fst (@api_get_question ascii_unicode path undecodable 0 (loaded sample_file)))
  = 404%nat
  /\ snd (fst (@api_get_question ascii_unicode path denied 0 (loaded sample_file)))
     = 500%nat
  /\ snd (fst (@api_validate ascii_unicode path undecodable body (loaded sample_file)))
     = 400%nat
  /\ snd (fst (@api_validate ascii_unicode path denied body (loaded sample_file)))
     = 500%nat
  /\ snd (fst (@api_get_question ascii_unicode path (NotRegular 5) 0 (loaded sample_file)))
     = 200%nat
  /\ snd (fst (@api_get_question ascii_unicode path (NotRegular 6) 0 (loaded sample_file)))
     = 500%nat.
Proof. compute_each. Qed.

(** X17: [api_reset] always answers 200 and leaves an empty used set; on a
    consistent manager, while the file keeps the recorded modification time,
    the next [api_get_question] then answers 200. *)
Theorem api_reset_then_question {U : Unicode} file_path fs choice qm :
  snd (fst (api_reset file_path qm)) = 200%nat
  /\ _used (snd (api_reset file_path qm)) = ∅
  /\ (consistent qm -> getmtime fs = _mtime qm ->
      snd (fst (api_get_question file_path fs choice (snd (api_reset file_path qm))))
      = 200%nat).
Proof.
  split; [reflexivity|]. split; [reflexivity|].
  intros (Hne & _ & _ & Hm) Hfs. cbn [api_reset clear_cache snd].
  set (qm0 := {| _used := ∅; _questions := _questions qm;
                 _id_map := _id_map qm; _mtime := _mtime qm |}).
  destruct (_mtime qm) as [m|] eqn:Em; [|congruence].
  unfold api_get_question.
  rewrite (get_random_question_current fs m Hfs) by reflexivity.
  assert (Hall : List.filter (unused qm0) (_questions qm0) = _questions qm).
  { apply filter_all. apply List.Forall_forall. intros rec _.
    unfold unused. cbn [qm0 _used]. apply negb_true_iff, bool_decide_eq_false_2.
    apply not_elem_of_empty. }
  rewrite Hall. destruct (_questions qm); [congruence | reflexivity].
Qed.

Lemma api_reset_then_question_witness :
  snd (fst (@api_get_question ascii_unicode (lit "/srv/questions.txt") sample_file 2
              (snd (api_reset (lit "/srv/questions.txt") (loaded sample_file)))))
  = 200%nat.
Proof.
  apply (proj2 (proj2 (@api_reset_then_question ascii_unicode (lit "/srv/questions.txt")
                         sample_file 2 (loaded sample_file)))).
  - apply (@init_consistent ascii_unicode sample_file). reflexivity.
  - reflexivity.
Defined.
